(** * Fila de Atendimento: a shallow embedding of [fila_atendimento.py]

    Python floats are modelled as exact rationals [Q] (no NaN, no
    infinities, no rounding).  Strings are Stdlib [string]s. *)

From Stdlib Require Import String Ascii Bool ZArith QArith Qminmax List Arith Lia.
From Stdlib Require Import Sorting.Permutation Sorting.Sorted.
Import ListNotations.
Open Scope bool_scope.
Open Scope nat_scope.

(** ** Python comparison operators on a key type *)

(** The operators [<=], [<], [==], [>] a key function's values are
    compared with. *)
Class PyOrd (K : Type) := {
  py_le : K -> K -> bool;
  py_lt : K -> K -> bool;
  py_eq : K -> K -> bool;
  py_gt : K -> K -> bool
}.

(** A total preorder: what Python's own [sorted] asks of its keys. *)
Class PyOrdLaws (K : Type) `{PyOrd K} : Prop := {
  py_le_total : forall a b, py_le a b = true \/ py_le b a = true;
  py_le_trans : forall a b c, py_le a b = true -> py_le b c = true -> py_le a c = true;
  py_lt_spec : forall a b, py_lt a b = negb (py_le b a);
  py_gt_spec : forall a b, py_gt a b = py_lt b a;
  py_eq_spec : forall a b, py_eq a b = true <-> (py_le a b = true /\ py_le b a = true)
}.

(** Python floats, modelled as [Q]. *)
#[export] Instance PyOrd_Q : PyOrd Q := {
  py_le := Qle_bool;
  py_lt a b := negb (Qle_bool b a);
  py_eq := Qeq_bool;
  py_gt a b := negb (Qle_bool a b)
}.

(** Python ints (the heap's priority and counter). *)
#[export] Instance PyOrd_Z : PyOrd Z := {
  py_le := Z.leb;
  py_lt := Z.ltb;
  py_eq := Z.eqb;
  py_gt a b := Z.ltb b a
}.

(** ** Sorting algorithms (lines 71-95) *)

Section Sorts.
Context {A K : Type} `{PyOrd K}.
Variable key : A -> K.

(** The [while] loop of [merge_sort] followed by the two [extend]s:
    on equal keys the left run is taken first. *)
Fixpoint merge (left : list A) : list A -> list A :=
  fix merge_r (right : list A) : list A :=
    match left, right with
    | [], _ => right
    | _, [] => left
    | x :: left', y :: right' =>
        if py_le (key x) (key y) then x :: merge left' right
        else y :: merge_r right'
    end.

(** [merge_sort] splits at [len(arr) // 2]; [fuel] bounds the recursion
    depth and is always [len(arr)] at the top (see [merge_sort]). *)
Fixpoint merge_sort_fuel (fuel : nat) (arr : list A) : list A :=
  match fuel with
  | O => arr
  | S f =>
      if length arr <=? 1 then arr
      else
        let mid := Nat.div (length arr) 2 in
        merge (merge_sort_fuel f (firstn mid arr)) (merge_sort_fuel f (skipn mid arr))
  end.

Definition merge_sort (arr : list A) : list A := merge_sort_fuel (length arr) arr.

(** [quick_sort]: pivot [key(arr[len(arr)//2])], three list
    comprehensions, recursion on the outer two. *)
Fixpoint quick_sort_fuel (fuel : nat) (arr : list A) : list A :=
  match fuel with
  | O => arr
  | S f =>
      if length arr <=? 1 then arr
      else
        match nth_error arr (Nat.div (length arr) 2) with
        | None => arr
        | Some p =>
            let pivot := key p in
            let left := filter (fun x => py_lt (key x) pivot) arr in
            let middle := filter (fun x => py_eq (key x) pivot) arr in
            let right := filter (fun x => py_gt (key x) pivot) arr in
            quick_sort_fuel f left ++ middle ++ quick_sort_fuel f right
        end
  end.

Definition quick_sort (arr : list A) : list A := quick_sort_fuel (length arr) arr.

End Sorts.

(** Specification vocabulary for sorting. *)
Definition sorted_by {A K} `{PyOrd K} (key : A -> K) (l : list A) : Prop :=
  Sorted (fun x y => py_le (key x) (key y) = true) l.

(** Stability: every class of equal keys keeps its relative order. *)
Definition stable_wrt {A K} `{PyOrd K} (key : A -> K) (l out : list A) : Prop :=
  forall k, filter (fun x => py_eq (key x) k) out = filter (fun x => py_eq (key x) k) l.

(** ** Customers (class [Cliente], lines 26-48) *)

(** ASCII part of Python's [str.lower]. *)
Definition lower_ascii (c : ascii) : ascii :=
  let n := nat_of_ascii c in
  if (65 <=? n) && (n <=? 90) then ascii_of_nat (n + 32) else c.

Fixpoint lower (s : string) : string :=
  match s with
  | EmptyString => EmptyString
  | String c s' => String (lower_ascii c) (lower s')
  end.

Record Cliente := mk_cliente {
  cid : string;
  nome : string;
  tipo : string;           (* stored lower-cased by [__init__] *)
  tempo_servico : Q;
  chegada : Q
}.

(** [Cliente.__init__]: lower-cases the type; the numeric fields are
    already numbers here ([float()] of a float). *)
Definition novo_cliente (id nm tp : string) (ts ch : Q) : Cliente :=
  mk_cliente id nm (lower tp) ts ch.

(** A served customer: the [Cliente] together with the two fields
    [simular] writes into it ([inicio_atendimento], [termino_atendimento]). *)
Record Atendido := mk_atendido {
  cli : Cliente;
  inicio_atendimento : Q;
  termino_atendimento : Q
}.

(** [Cliente.espera] once [inicio_atendimento] is set. *)
Definition espera (a : Atendido) : Q := (inicio_atendimento a - chegada (cli a))%Q.

(** ** Priority by type (lines 56-63) *)

(** [PRIORIDADE_TIPO.get(tipo.lower(), 99)] *)
Definition tipo_prioridade (t : string) : Z :=
  let t' := lower t in
  if String.eqb t' "corporativo" then 1%Z
  else if String.eqb t' "preferencial" then 2%Z
  else if String.eqb t' "comum" then 3%Z
  else 99%Z.

(** Python's [max(a, b)]: [b] replaces [a] only when [b > a]. *)
Definition py_max (a b : Q) : Q := if py_gt b a then b else a.

(** ** Exceptions *)

Inductive exc := KeyError (k : string).

Inductive res (X : Type) := Ok (x : X) | Raise (e : exc).
Arguments Ok {X} x.
Arguments Raise {X} e.

(** ** Queue disciplines: the [push] / [pop_next] closures of [simular] *)

Record Disciplina := {
  d_estado : Type;
  d_vazio : d_estado;
  d_push : Cliente -> d_estado -> res d_estado;
  d_pop : d_estado -> option (Cliente * d_estado);
  (** the loop's emptiness test: [any(len(q)>0 ...)] or [bool(heap)] *)
  d_nao_vazia : d_estado -> bool
}.
Arguments d_vazio {d}.
Arguments d_push {d} c s.
Arguments d_pop {d} s.
Arguments d_nao_vazia {d} s.

(** *** 'lista': three deques by type (lines 142-150, 235-240) *)

Record Filas := mk_filas {
  f_corporativo : list Cliente;
  f_preferencial : list Cliente;
  f_comum : list Cliente
}.

Definition filas_vazias : Filas := mk_filas [] [] [].

(** [filas[cliente.tipo].append(cliente)]: a [KeyError] for any other type. *)
Definition push_lista (c : Cliente) (f : Filas) : res Filas :=
  if String.eqb (tipo c) "corporativo" then
    Ok (mk_filas (f_corporativo f ++ [c]) (f_preferencial f) (f_comum f))
  else if String.eqb (tipo c) "preferencial" then
    Ok (mk_filas (f_corporativo f) (f_preferencial f ++ [c]) (f_comum f))
  else if String.eqb (tipo c) "comum" then
    Ok (mk_filas (f_corporativo f) (f_preferencial f) (f_comum f ++ [c]))
  else Raise (KeyError (tipo c)).

Definition pop_from_filas_deque (f : Filas) : option (Cliente * Filas) :=
  match f_corporativo f with
  | c :: r => Some (c, mk_filas r (f_preferencial f) (f_comum f))
  | [] =>
    match f_preferencial f with
    | c :: r => Some (c, mk_filas [] r (f_comum f))
    | [] =>
      match f_comum f with
      | c :: r => Some (c, mk_filas [] [] r)
      | [] => None
      end
    end
  end.

Definition nao_vazia (l : list Cliente) : bool :=
  match l with [] => false | _ => true end.

Definition filas_nao_vazias (f : Filas) : bool :=
  nao_vazia (f_corporativo f) || nao_vazia (f_preferencial f) || nao_vazia (f_comum f).

Definition lista : Disciplina := {|
  d_estado := Filas;
  d_vazio := filas_vazias;
  d_push := push_lista;
  d_pop := pop_from_filas_deque;
  d_nao_vazia := filas_nao_vazias
|}.

(** *** 'prioridade': a heap of [(priority, arrival, counter, cliente)]
    (lines 152-162).  The heap is kept as the multiset of its entries in
    insertion order; [heappop] removes the least entry. *)

Definition Entrada : Type := (Z * Q * Z * Cliente)%type.

(** Python's tuple [<] on entries.  Equal counters never occur (the
    counter is fresh for every push), so the [Cliente]s are never compared. *)
Definition entrada_lt (a b : Entrada) : bool :=
  let '(p1, t1, k1, _) := a in
  let '(p2, t2, k2, _) := b in
  if py_eq p1 p2 then
    if py_eq t1 t2 then
      if py_eq k1 k2 then false
      else py_lt k1 k2
    else py_lt t1 t2
  else py_lt p1 p2.

(** [heapq.heappop]: the least entry and the others. *)
Fixpoint extrai_min (h : list Entrada) : option (Entrada * list Entrada) :=
  match h with
  | [] => None
  | e :: h' =>
    match extrai_min h' with
    | None => Some (e, [])
    | Some (m, r) => if entrada_lt m e then Some (m, e :: r) else Some (e, h')
    end
  end.

Record Heap := mk_heap { heap : list Entrada; counter : Z }.

Definition heap_vazio : Heap := mk_heap [] 0.

Definition push_heap (c : Cliente) (s : Heap) : res Heap :=
  Ok (mk_heap (heap s ++ [(tipo_prioridade (tipo c), chegada c, counter s, c)])
              (counter s + 1)).

Definition pop_heap (s : Heap) : option (Cliente * Heap) :=
  match extrai_min (heap s) with
  | None => None
  | Some ((_, _, _, c), h') => Some (c, mk_heap h' (counter s))
  end.

Definition heap_nao_vazio (s : Heap) : bool :=
  match heap s with [] => false | _ => true end.

Definition prioridade : Disciplina := {|
  d_estado := Heap;
  d_vazio := heap_vazio;
  d_push := push_heap;
  d_pop := pop_heap;
  d_nao_vazia := heap_nao_vazio
|}.

(** ** The simulation loop (lines 164-214) *)

Section Simulacao.
Variable D : Disciplina.

(** [while idx_chegada < n and chegadas[idx_chegada].chegada <= current_time:
       push(chegadas[idx_chegada]); idx_chegada += 1];
    the not-yet-admitted arrivals [chegadas[idx_chegada:]] are returned. *)
Fixpoint admitir (current_time : Q) (chegadas : list Cliente) (fila : d_estado D)
  : res (list Cliente * d_estado D) :=
  match chegadas with
  | [] => Ok ([], fila)
  | c :: resto =>
    if py_le (chegada c) current_time then
      match d_push c fila with
      | Ok fila' => admitir current_time resto fila'
      | Raise e => Raise e
      end
    else Ok (chegadas, fila)
  end.

(** One turn of the [while] loop per unit of [fuel]; [None] only if the
    fuel runs out.  [chegadas] is the suffix [chegadas[idx_chegada:]]. *)
Fixpoint laco (fuel : nat) (current_time : Q) (chegadas : list Cliente)
  (fila : d_estado D) (atendidos : list Atendido) : option (res (list Atendido)) :=
  match fuel with
  | O => None
  | S f =>
    if negb (nao_vazia chegadas) && negb (d_nao_vazia fila) then Some (Ok atendidos)
    else
      let t1 :=
        match chegadas with
        | c :: _ => if negb (d_nao_vazia fila) then py_max current_time (chegada c)
                    else current_time
        | [] => current_time
        end in
      match admitir t1 chegadas fila with
      | Raise e => Some (Raise e)
      | Ok (chegadas1, fila1) =>
        match d_pop fila1 with
        | None =>
          match chegadas1 with
          | c :: _ => laco f (py_max t1 (chegada c)) chegadas1 fila1 atendidos
          | [] => Some (Ok atendidos)
          end
        | Some (prox, fila2) =>
          let inicio := py_max t1 (chegada prox) in
          let termino := (inicio + tempo_servico prox)%Q in
          let atendidos' := atendidos ++ [mk_atendido prox inicio termino] in
          match admitir termino chegadas1 fila2 with
          | Raise e => Some (Raise e)
          | Ok (chegadas2, fila3) => laco f termino chegadas2 fila3 atendidos'
          end
        end
      end
  end.

(** The loop from [current_time = 0.0] with an empty queue; [n + 1]
    turns of fuel (see [laco_termina]). *)
Definition executa (chegadas : list Cliente) : option (res (list Atendido)) :=
  laco (S (length chegadas)) 0 chegadas d_vazio [].

End Simulacao.

(** ** Statistics and [simular] (lines 130-233) *)

Record Estatisticas := mk_stats {
  n_atendidos : nat;
  tempo_total_espera : Q;
  tempo_medio_espera : Q;
  tempo_total_atendimento : Q;
  estrutura_usada : string;
  algoritmo_ordenacao : string;
  regra_reordenacao : string;
  complexidade_media_ord : string
}.

(** Python's [sum] over a list of numbers. *)
Definition py_sum (l : list Q) : Q := fold_left Qplus l 0%Q.

Definition complexity_hint (alg : string) : string :=
  if String.eqb alg "merge" then "O(n log n)"
  else if String.eqb alg "quick" then "O(n log n) (pior caso O(n^2) se pivô ruim)"
  else "Desconhecida".

Definition estatisticas (atendidos : list Atendido) (estrutura algoritmo_ord reorder_rule : string)
  : Estatisticas :=
  let total_espera := py_sum (map espera atendidos) in
  let total_atendimento := py_sum (map (fun a => tempo_servico (cli a)) atendidos) in
  let n := length atendidos in
  let media := if 0 <? n then (total_espera / inject_Z (Z.of_nat n))%Q else 0%Q in
  mk_stats n total_espera media total_atendimento estrutura algoritmo_ord reorder_rule
           (complexity_hint algoritmo_ord).

(** The arrival order: [merge_sort] for 'merge', [quick_sort] otherwise. *)
Definition ordena_chegadas (algoritmo_ord : string) (clientes : list Cliente) : list Cliente :=
  if String.eqb algoritmo_ord "merge" then merge_sort chegada clientes
  else quick_sort chegada clientes.

(** [simular]: returns [(stats, atendidos, undo_stack)]; the [mapa] by
    id plays no part in the simulation and is left out. *)
Definition simular (clientes : list Cliente) (estrutura algoritmo_ord reorder_rule : string)
  (registrar_undo : bool) : option (res (Estatisticas * list Atendido * list Atendido)) :=
  let chegadas := ordena_chegadas algoritmo_ord clientes in
  let run := if String.eqb estrutura "lista" then executa lista chegadas
             else executa prioridade chegadas in
  match run with
  | None => None
  | Some (Raise e) => Some (Raise e)
  | Some (Ok atendidos) =>
    Some (Ok (estatisticas atendidos estrutura algoritmo_ord reorder_rule, atendidos,
              if registrar_undo then atendidos else []))
  end.

(** The served customers of a run. *)
Definition atendidos_de (r : option (res (Estatisticas * list Atendido * list Atendido)))
  : option (res (list Atendido)) :=
  match r with
  | None => None
  | Some (Raise e) => Some (Raise e)
  | Some (Ok (_, ats, _)) => Some (Ok ats)
  end.

(** ** Specification vocabulary *)

(** The customers held by a queue state. *)
Definition conteudo_lista (f : Filas) : list Cliente :=
  f_corporativo f ++ f_preferencial f ++ f_comum f.

Definition ent_cli (e : Entrada) : Cliente := let '(_, _, _, c) := e in c.

Definition conteudo_heap (s : Heap) : list Cliente := map ent_cli (heap s).

(** What the simulation loop relies on from a discipline, stated against
    the multiset [cont] of queued customers. *)
Record Leis (D : Disciplina) (cont : d_estado D -> list Cliente) : Prop := {
  lei_vazio : cont d_vazio = [];
  lei_push : forall c s s', d_push c s = Ok s' -> Permutation (cont s') (c :: cont s);
  lei_pop : forall c s s', d_pop s = Some (c, s') -> Permutation (cont s) (c :: cont s');
  lei_pop_none : forall s, d_pop s = None -> cont s = [];
  lei_nao_vazia : forall s, d_nao_vazia s = false <-> cont s = []
}.

(** The two timestamp facts the spec states for a served customer. *)
Definition carimbo_ok (a : Atendido) : Prop :=
  (chegada (cli a) <= inicio_atendimento a)%Q /\
  termino_atendimento a = (inicio_atendimento a + tempo_servico (cli a))%Q.

(** The three type names of [PRIORIDADE_TIPO], as stored in a [Cliente]. *)
Definition reconhecido (c : Cliente) : bool :=
  String.eqb (tipo c) "corporativo" || String.eqb (tipo c) "preferencial" ||
  String.eqb (tipo c) "comum".

(** Queue states reachable from the empty queue by [push] and [pop_next]. *)
Inductive alcancavel (D : Disciplina) : d_estado D -> Prop :=
  | alc_vazio : alcancavel D d_vazio
  | alc_push : forall c s s', alcancavel D s -> d_push c s = Ok s' -> alcancavel D s'
  | alc_pop : forall c s s', alcancavel D s -> d_pop s = Some (c, s') -> alcancavel D s'.

(** A customer's rank, [tipo_prioridade(cliente.tipo)]: lower is served sooner. *)
Definition rank (c : Cliente) : Z := tipo_prioridade (tipo c).

(** Every deque holds only customers of its own type. *)
Definition filas_ok (f : Filas) : Prop :=
  Forall (fun c => tipo c = "corporativo"%string) (f_corporativo f) /\
  Forall (fun c => tipo c = "preferencial"%string) (f_preferencial f) /\
  Forall (fun c => tipo c = "comum"%string) (f_comum f).

Definition ent_prio (e : Entrada) : Z := let '(p, _, _, _) := e in p.
Definition ent_cheg (e : Entrada) : Q := let '(_, t, _, _) := e in t.
Definition ent_cont (e : Entrada) : Z := let '(_, _, k, _) := e in k.

(** A heap entry as [push] builds it. *)
Definition entrada_ok (e : Entrada) : Prop :=
  ent_prio e = rank (ent_cli e) /\ ent_cheg e = chegada (ent_cli e).

(** The customers of rank [r] in the heap, in insertion order. *)
Definition balde (r : Z) (h : Heap) : list Cliente :=
  map ent_cli (filter (fun e => Z.eqb (ent_prio e) r) (heap h)).

(** The three deques a heap corresponds to. *)
Definition filas_de (h : Heap) : Filas := mk_filas (balde 1 h) (balde 2 h) (balde 3 h).

(** Entry [a] was pushed before entry [b]. *)
Definition antes (a b : Entrada) : Prop :=
  (ent_cheg a <= ent_cheg b)%Q /\ (ent_cont a < ent_cont b)%Z.

(** What holds of the heap while the sorted arrivals [rem] are still
    to be pushed. *)
Definition inv_heap (rem : list Cliente) (h : Heap) : Prop :=
  Forall (fun c => reconhecido c = true) rem /\
  StronglySorted (fun a b => py_le (chegada a) (chegada b) = true) rem /\
  Forall (fun e => entrada_ok e /\ reconhecido (ent_cli e) = true /\ (ent_cont e < counter h)%Z)
    (heap h) /\
  StronglySorted antes (heap h) /\
  (forall e c, In e (heap h) -> In c rem -> (ent_cheg e <= chegada c)%Q).

Definition rel_filas_heap (rem : list Cliente) (f : Filas) (h : Heap) : Prop :=
  inv_heap rem h /\ f = filas_de h.

(** ** Concrete inputs *)

(** The scenario of the spec: A (comum, 5 min, arrives 0), B (corporativo,
    3 min, arrives 1), C (preferencial, 2 min, arrives 1). *)
Definition cliente_A : Cliente := novo_cliente "A" "A" "comum" 5 0.
Definition cliente_B : Cliente := novo_cliente "B" "B" "corporativo" 3 1.
Definition cliente_C : Cliente := novo_cliente "C" "C" "preferencial" 2 1.
Definition cenario : list Cliente := [cliente_A; cliente_B; cliente_C].

Definition atendidos_cenario : list Atendido :=
  [mk_atendido cliente_A 0 5; mk_atendido cliente_B 5 8; mk_atendido cliente_C 8 10].

Definition stats_cenario (alg : string) : Estatisticas :=
  mk_stats 3 11 (11 # 3) 10 "lista" alg "por_prioridade" (complexity_hint alg).

(** A customer of a type outside [PRIORIDADE_TIPO]. *)
Definition cliente_vip : Cliente := novo_cliente "V" "V" "vip" 1 0.

(** A customer with a negative service time. *)
Definition cliente_neg : Cliente := novo_cliente "N" "N" "comum" (-3) 0.

(** Two regular customers and a corporate one, given out of arrival
    order: D (comum, 5 min, arrives 0), E (comum, 1 min, arrives 1),
    F (corporativo, 1 min, arrives 2). F overtakes E, D stays before E. *)
Definition cliente_D : Cliente := novo_cliente "D" "D" "comum" 5 0.
Definition cliente_E : Cliente := novo_cliente "E" "E" "comum" 1 1.
Definition cliente_F : Cliente := novo_cliente "F" "F" "corporativo" 1 2.
Definition cenario_fifo : list Cliente := [cliente_E; cliente_F; cliente_D].

Definition atendidos_fifo : list Atendido :=
  [mk_atendido cliente_D 0 5; mk_atendido cliente_F 5 6; mk_atendido cliente_E 6 7].

Definition stats_fifo : Estatisticas :=
  mk_stats 3 8 (8 # 3) 7 "lista" "quick" "por_chegada" (complexity_hint "quick").

(** ** The [mapa] of [simular] (line 132): [{c.id: c for c in clientes}] *)

(** A Python dict as an association list in insertion order: assigning
    an existing key keeps its place and replaces the value; a new key
    goes at the end. *)
Fixpoint dict_set {V : Type} (k : string) (v : V) (d : list (string * V)) : list (string * V) :=
  match d with
  | [] => [(k, v)]
  | (k', v') :: r => if String.eqb k k' then (k', v) :: r else (k', v') :: dict_set k v r
  end.

Fixpoint dict_get {V : Type} (k : string) (d : list (string * V)) : option V :=
  match d with
  | [] => None
  | (k', v) :: r => if String.eqb k k' then Some v else dict_get k r
  end.

Definition mapa_por_id (clientes : list Cliente) : list (string * Cliente) :=
  fold_left (fun d c => dict_set (cid c) c d) clientes [].

(** ** [carregar_csv] (lines 100-119), from the rows [csv.reader] yields *)

Inductive exc_csv := StopIteration | ValueError.

Inductive res_csv (X : Type) := Lido (x : X) | Falhou (e : exc_csv).
Arguments Lido {X} x.
Arguments Falhou {X} e.

Section Carregar.
(** Python's [float] on a field: [None] where it raises [ValueError]. *)
Variable py_float : string -> option Q.

(** [Cliente(row[0], row[1], row[2], row[3], row[4])]: [float] is applied
    to the service time, then to the arrival time. *)
Definition cliente_de_linha (row : list string) : option Cliente :=
  match row with
  | i :: nm :: tp :: ts :: ch :: _ =>
    match py_float ts with
    | None => None
    | Some ts' =>
      match py_float ch with
      | None => None
      | Some ch' => Some (novo_cliente i nm tp ts' ch')
      end
    end
  | _ => None
  end.

(** The first row inside [try ... except Exception: pass]: [first[4]]
    (an [IndexError] on a short row), [float(first[4])], then the
    [Cliente]; any exception drops the row. *)
Definition primeira_linha (first : list string) : list Cliente :=
  match nth_error first 4 with
  | None => []
  | Some a =>
    match py_float a with
    | None => []
    | Some _ => match cliente_de_linha first with Some c => [c] | None => [] end
    end
  end.

(** [for row in reader: if not row or len(row) < 5: continue; ...]:
    a [ValueError] of [Cliente] ends the whole call. *)
Fixpoint demais_linhas (rows : list (list string)) : res_csv (list Cliente) :=
  match rows with
  | [] => Lido []
  | row :: r =>
    if length row <? 5 then demais_linhas r
    else
      match cliente_de_linha row with
      | None => Falhou ValueError
      | Some c =>
        match demais_linhas r with
        | Lido cs => Lido (c :: cs)
        | Falhou e => Falhou e
        end
      end
  end.

(** [next(reader)] raises [StopIteration] on an empty file. *)
Definition carregar_csv (rows : list (list string)) : res_csv (list Cliente) :=
  match rows with
  | [] => Falhou StopIteration
  | first :: rest =>
    match demais_linhas rest with
    | Lido cs => Lido (primeira_linha first ++ cs)
    | Falhou e => Falhou e
    end
  end.
End Carregar.

(** An instance of [float] for the examples: unsigned decimal integers. *)
Fixpoint digitos (s : string) (acc : Z) : option Z :=
  match s with
  | EmptyString => Some acc
  | String a r =>
    let n := nat_of_ascii a in
    if (48 <=? n) && (n <=? 57) then digitos r (acc * 10 + Z.of_nat (n - 48))%Z else None
  end.

Definition float_inteiro (s : string) : option Q :=
  match s with
  | EmptyString => None
  | _ => option_map inject_Z (digitos s 0%Z)
  end.

(** ** Vocabulary for the served schedule *)

(** The [k]-th served customer starts at the later of the previous end
    ([t0] for the first) and its arrival, and ends after its service. *)
Fixpoint agenda (t0 : Q) (ats : list Atendido) : Prop :=
  match ats with
  | [] => True
  | a :: r =>
    (inicio_atendimento a == Qmax t0 (chegada (cli a)))%Q /\
    termino_atendimento a = (inicio_atendimento a + tempo_servico (cli a))%Q /\
    agenda (termino_atendimento a) r
  end.

(** The customers of type [t] of a list, in order. *)
Definition do_tipo (t : string) (l : list Cliente) : list Cliente :=
  filter (fun c => String.eqb (tipo c) t) l.

(** Rows of a CSV file for the examples: a header, two data rows (one type
    in capitals) and a blank line. *)
Definition linhas_exemplo : list (list string) :=
  ([["id"; "name"; "type"; "service_time_minutes"; "arrival_time_minutes"];
   ["1"; "Jose Silva"; "comum"; "8"; "5"];
   ["2"; "Ana"; "Corporativo"; "3"; "6"];
   []])%string.

(** A file whose first row is data, but with a bad service time. *)
Definition linhas_sem_cabecalho : list (list string) :=
  ([["1"; "Jose Silva"; "comum"; "x"; "5"]; ["2"; "Ana"; "vip"; "3"; "6"]])%string.

(* PROOFS *)

(** ** Sorting: permutation, order, stability *)

Section SortProofs.
Context {A K : Type} `{PyOrdLaws K}.
Variable key : A -> K.

Let R (x y : A) : Prop := py_le (key x) (key y) = true.

Lemma py_le_refl (a : K) : py_le a a = true.
Proof. destruct (py_le_total a a); assumption. Qed.

Lemma py_lt_irrefl (a : K) : py_lt a a = false.
Proof. rewrite py_lt_spec, py_le_refl. reflexivity. Qed.

Lemma py_le_false (a b : K) : py_le a b = false -> py_le b a = true.
Proof. intros Hf. destruct (py_le_total a b) as [E|E]; [congruence|exact E]. Qed.

Lemma merge_cons_cons (x y : A) (l r : list A) :
  merge key (x :: l) (y :: r) =
  if py_le (key x) (key y) then x :: merge key l (y :: r) else y :: merge key (x :: l) r.
Proof. reflexivity. Qed.

Lemma merge_perm (l r : list A) : Permutation (merge key l r) (l ++ r).
Proof.
  revert r. induction l as [|x l IHl]; intros r.
  - destruct r; reflexivity.
  - induction r as [|y r IHr].
    + simpl. rewrite app_nil_r. reflexivity.
    + simpl. destruct (py_le (key x) (key y)).
      * constructor. apply IHl.
      * rewrite IHr. apply Permutation_middle.
Qed.

Lemma SS_app (l1 l2 : list A) :
  StronglySorted R l1 -> StronglySorted R l2 ->
  (forall x y, In x l1 -> In y l2 -> R x y) -> StronglySorted R (l1 ++ l2).
Proof.
  induction l1 as [|a l1 IH]; intros S1 S2 Hxy; simpl; [exact S2|].
  inversion S1; subst. constructor.
  - apply IH; auto. intros; apply Hxy; simpl; auto.
  - apply Forall_app; split; auto.
    apply Forall_forall. intros y Hy. apply Hxy; simpl; auto.
Qed.

Lemma SS_forall_perm (a : A) (l l' : list A) :
  Permutation l l' -> Forall (R a) l -> Forall (R a) l'.
Proof.
  intros P F. rewrite Forall_forall in *. intros y Hy.
  apply F. apply Permutation_in with l'; [symmetry; exact P | exact Hy].
Qed.

Lemma merge_sorted (l r : list A) :
  StronglySorted R l -> StronglySorted R r -> StronglySorted R (merge key l r).
Proof.
  revert r. induction l as [|x l IHl]; intros r Sl Sr.
  - destruct r; exact Sr.
  - induction r as [|y r IHr].
    + exact Sl.
    + inversion Sl as [|? ? Sl' Fl]; subst.
      inversion Sr as [|? ? Sr' Fr]; subst.
      simpl. destruct (py_le (key x) (key y)) eqn:Exy.
      * constructor; [apply IHl; auto|].
        apply SS_forall_perm with (l ++ y :: r); [symmetry; apply merge_perm|].
        apply Forall_app; split; [exact Fl|].
        constructor; [exact Exy|].
        rewrite Forall_forall in *. intros z Hz.
        apply py_le_trans with (key y); [exact Exy | apply Fr; exact Hz].
      * apply py_le_false in Exy.
        assert (IH := IHr Sr').
        constructor; [exact IH|].
        apply SS_forall_perm with ((x :: l) ++ r); [symmetry; exact (merge_perm (x :: l) r)|].
        apply Forall_app; split; [|exact Fr].
        constructor; [exact Exy|].
        rewrite Forall_forall in *. intros z Hz.
        apply py_le_trans with (key x); [exact Exy | apply Fl; exact Hz].
Qed.

Lemma py_eq_le (a b : K) : py_eq a b = true -> py_le a b = true /\ py_le b a = true.
Proof. apply py_eq_spec. Qed.

Lemma filter_sorted_nil (k : K) (x : A) (l : list A) :
  StronglySorted R (x :: l) ->
  forall y, py_le (key x) (key y) = false -> py_eq (key y) k = true ->
  filter (fun z => py_eq (key z) k) (x :: l) = [].
Proof.
  intros S y Hxy Hy.
  inversion S as [|? ? _ F]; subst.
  destruct (py_eq_le _ _ Hy) as [Hy1 Hy2].
  assert (Hz : forall z, py_le (key x) (key z) = true -> py_eq (key z) k = false).
  { intros z Hxz. destruct (py_eq (key z) k) eqn:Ez; [|reflexivity].
    destruct (py_eq_le _ _ Ez) as [Ez1 _].
    assert (py_le (key x) (key y) = true).
    { apply py_le_trans with (key z); [exact Hxz|].
      apply py_le_trans with k; assumption. }
    congruence. }
  simpl. rewrite (Hz x (py_le_refl _)).
  induction l as [|z l IH]; [reflexivity|].
  inversion F as [|? ? Rz F']; subst.
  simpl. rewrite (Hz z Rz). apply IH; auto.
  inversion S as [|? ? S' _]; subst. inversion S'; subst. constructor; auto.
Qed.

Lemma filter_cons_eq (f : A -> bool) (a : A) (l : list A) :
  filter f (a :: l) = if f a then a :: filter f l else filter f l.
Proof. reflexivity. Qed.

Lemma merge_stable (k : K) (l r : list A) :
  StronglySorted R l -> StronglySorted R r ->
  filter (fun z => py_eq (key z) k) (merge key l r) =
  filter (fun z => py_eq (key z) k) l ++ filter (fun z => py_eq (key z) k) r.
Proof.
  revert r. induction l as [|x l IHl]; intros r Sl Sr.
  - destruct r; reflexivity.
  - induction r as [|y r IHr].
    + simpl merge. rewrite app_nil_r. reflexivity.
    + inversion Sl as [|? ? Sl' _]; subst.
      inversion Sr as [|? ? Sr' _]; subst.
      rewrite merge_cons_cons. destruct (py_le (key x) (key y)) eqn:Exy.
      * rewrite (filter_cons_eq _ x (merge key l (y :: r))), (IHl (y :: r) Sl' Sr).
        rewrite (filter_cons_eq _ x l).
        destruct (py_eq (key x) k); reflexivity.
      * rewrite (filter_cons_eq _ y (merge key (x :: l) r)), (IHr Sr').
        rewrite (filter_cons_eq _ y r).
        destruct (py_eq (key y) k) eqn:Ey.
        -- rewrite (filter_sorted_nil k x l Sl y Exy Ey). reflexivity.
        -- reflexivity.
Qed.

Lemma firstn_half_lt (l : list A) :
  ~ length l <= 1 -> length (firstn (Nat.div (length l) 2) l) < length l.
Proof.
  intros Hl. rewrite length_firstn.
  assert (Nat.div (length l) 2 < length l) by (apply Nat.div_lt; lia). lia.
Qed.

Lemma skipn_half_lt (l : list A) :
  ~ length l <= 1 -> length (skipn (Nat.div (length l) 2) l) < length l.
Proof.
  intros Hl. rewrite length_skipn.
  assert (1 <= Nat.div (length l) 2).
  { apply Nat.div_le_lower_bound; lia. }
  lia.
Qed.

Lemma merge_sort_fuel_perm (n : nat) (l : list A) : Permutation (merge_sort_fuel key n l) l.
Proof.
  revert l. induction n as [|n IH]; intros l; cbn [merge_sort_fuel]; [reflexivity|].
  destruct (length l <=? 1); [reflexivity|].
  rewrite merge_perm. set (m := Nat.div (length l) 2).
  transitivity (firstn m l ++ skipn m l).
  - apply Permutation_app; apply IH.
  - rewrite firstn_skipn. reflexivity.
Qed.

Lemma merge_sort_fuel_sorted (n : nat) (l : list A) :
  length l <= n -> StronglySorted R (merge_sort_fuel key n l).
Proof.
  revert l. induction n as [|n IH]; intros l Hn; cbn [merge_sort_fuel].
  - destruct l; [constructor|simpl in Hn; lia].
  - destruct (length l <=? 1) eqn:E.
    + apply Nat.leb_le in E. destruct l as [|a [|b l]]; simpl in E; try lia.
      * constructor.
      * repeat constructor.
    + apply Nat.leb_nle in E.
      apply merge_sorted; apply IH.
      * pose proof (firstn_half_lt l E); lia.
      * pose proof (skipn_half_lt l E); lia.
Qed.

Lemma merge_sort_fuel_stable (n : nat) (l : list A) :
  length l <= n -> stable_wrt key l (merge_sort_fuel key n l).
Proof.
  revert l. induction n as [|n IH]; intros l Hn k; cbn [merge_sort_fuel]; [reflexivity|].
  destruct (length l <=? 1) eqn:E; [reflexivity|].
  apply Nat.leb_nle in E.
  assert (H1 := firstn_half_lt l E). assert (H2 := skipn_half_lt l E).
  rewrite merge_stable by (apply merge_sort_fuel_sorted; lia).
  set (m := Nat.div (length l) 2) in *.
  rewrite (IH (firstn m l) ltac:(lia) k), (IH (skipn m l) ltac:(lia) k).
  rewrite <- filter_app, firstn_skipn. reflexivity.
Qed.

End SortProofs.

Section QuickProofs.
Context {A K : Type} `{PyOrdLaws K}.
Variable key : A -> K.

Let R (x y : A) : Prop := py_le (key x) (key y) = true.

Lemma pivot_cases (a p : K) :
  (py_lt a p = true /\ py_eq a p = false /\ py_gt a p = false) \/
  (py_lt a p = false /\ py_eq a p = true /\ py_gt a p = false) \/
  (py_lt a p = false /\ py_eq a p = false /\ py_gt a p = true).
Proof.
  rewrite py_gt_spec, !py_lt_spec.
  destruct (py_le p a) eqn:E1, (py_le a p) eqn:E2; simpl.
  - right; left. repeat split. apply py_eq_spec; auto.
  - right; right. repeat split. destruct (py_eq a p) eqn:E; [|reflexivity].
    apply py_eq_spec in E. destruct E; congruence.
  - left. repeat split. destruct (py_eq a p) eqn:E; [|reflexivity].
    apply py_eq_spec in E. destruct E; congruence.
  - destruct (py_le_total a p); congruence.
Qed.

Lemma py_le_resp (a b p : K) :
  py_eq a b = true -> py_le a p = py_le b p /\ py_le p a = py_le p b.
Proof.
  intros E. apply py_eq_spec in E as [E1 E2]. split.
  - destruct (py_le a p) eqn:F, (py_le b p) eqn:G; auto.
    + assert (py_le b p = true) by (apply py_le_trans with a; auto). congruence.
    + assert (py_le a p = true) by (apply py_le_trans with b; auto). congruence.
  - destruct (py_le p a) eqn:F, (py_le p b) eqn:G; auto.
    + assert (py_le p b = true) by (apply py_le_trans with a; auto). congruence.
    + assert (py_le p a = true) by (apply py_le_trans with b; auto). congruence.
Qed.

Lemma pivot_resp (a b p : K) :
  py_eq a b = true ->
  py_lt a p = py_lt b p /\ py_eq a p = py_eq b p /\ py_gt a p = py_gt b p.
Proof.
  intros E. destruct (py_le_resp a b p E) as [L1 L2].
  rewrite !py_gt_spec, !py_lt_spec, L1, L2. repeat split.
  destruct (py_eq a p) eqn:F, (py_eq b p) eqn:G; auto.
  - apply py_eq_spec in F. rewrite L1, L2 in F. apply py_eq_spec in F. congruence.
  - apply py_eq_spec in G. rewrite <- L1, <- L2 in G. apply py_eq_spec in G. congruence.
Qed.

Lemma partition3_perm (f1 f2 f3 : A -> bool) (l : list A) :
  (forall x, In x l ->
     (f1 x = true /\ f2 x = false /\ f3 x = false) \/
     (f1 x = false /\ f2 x = true /\ f3 x = false) \/
     (f1 x = false /\ f2 x = false /\ f3 x = true)) ->
  Permutation l (filter f1 l ++ filter f2 l ++ filter f3 l).
Proof.
  induction l as [|x l IH]; intros Hx; [reflexivity|].
  assert (P := IH (fun y Hy => Hx y (or_intror Hy))).
  simpl. destruct (Hx x (or_introl eq_refl)) as [[-> [-> ->]]|[[-> [-> ->]]|[-> [-> ->]]]].
  - constructor. exact P.
  - eapply Permutation_trans; [apply perm_skip, P|apply Permutation_middle].
  - rewrite (app_assoc (filter f1 l)).
    eapply Permutation_trans; [apply perm_skip, P|].
    rewrite (app_assoc (filter f1 l)). apply Permutation_middle.
Qed.

Lemma filter_length_lt (f : A -> bool) (l : list A) (x : A) :
  In x l -> f x = false -> length (filter f l) < length l.
Proof.
  induction l as [|y l IH]; intros Hin Hf; [destruct Hin|].
  destruct Hin as [->|Hin]; simpl.
  - rewrite Hf. pose proof (filter_length_le f l). lia.
  - destruct (f y); simpl; [specialize (IH Hin Hf); lia|].
    pose proof (filter_length_le f l). lia.
Qed.

Lemma filter_class (P f : A -> bool) (c : bool) (l : list A) :
  (forall x, P x = true -> f x = c) ->
  filter P (filter f l) = if c then filter P l else [].
Proof.
  intros Hc. induction l as [|x l IH]; [destruct c; reflexivity|].
  simpl. destruct (f x) eqn:Fx, (P x) eqn:Px; simpl; rewrite ?Px, IH;
    destruct c; auto.
  - specialize (Hc x Px). congruence.
  - specialize (Hc x Px). congruence.
Qed.

(** Facts about one call: the pivot's own element is not in [left]
    nor in [right]. *)
Lemma quick_lengths (l : list A) (p : A) :
  In p l ->
  length (filter (fun x => py_lt (key x) (key p)) l) < length l /\
  length (filter (fun x => py_gt (key x) (key p)) l) < length l.
Proof.
  intros Hp. split; apply filter_length_lt with p; auto.
  - apply py_lt_irrefl.
  - rewrite py_gt_spec. apply py_lt_irrefl.
Qed.

Lemma quick_sort_fuel_perm (n : nat) (l : list A) : Permutation (quick_sort_fuel key n l) l.
Proof.
  revert l. induction n as [|n IH]; intros l; cbn [quick_sort_fuel]; [reflexivity|].
  destruct (length l <=? 1); [reflexivity|].
  destruct (nth_error l _) as [p|]; [|reflexivity].
  rewrite (IH (filter _ l)), (IH (filter (fun x => py_gt _ _) l)).
  symmetry. apply partition3_perm. intros x _. apply pivot_cases.
Qed.

Lemma SS_middle (pv : K) (m : list A) :
  Forall (fun x => py_eq (key x) pv = true) m -> StronglySorted R m.
Proof.
  induction m as [|x m IH]; intros F; constructor; inversion F as [|? ? Fx Fm]; subst.
  - apply IH, Fm.
  - rewrite Forall_forall in *. intros y Hy.
    apply py_eq_spec in Fx as [Fx _].
    destruct (proj1 (py_eq_spec _ _) (Fm y Hy)) as [_ Fy].
    unfold R. apply py_le_trans with pv; auto.
Qed.

Lemma quick_sort_fuel_sorted (n : nat) (l : list A) :
  length l <= n -> StronglySorted R (quick_sort_fuel key n l).
Proof.
  revert l. induction n as [|n IH]; intros l Hn; cbn [quick_sort_fuel].
  - destruct l; [constructor|simpl in Hn; lia].
  - destruct (length l <=? 1) eqn:E.
    + apply Nat.leb_le in E. destruct l as [|a [|b l]]; simpl in E; try lia.
      * constructor.
      * repeat constructor.
    + destruct (nth_error l _) as [p|] eqn:Np.
      2:{ apply nth_error_None in Np. apply Nat.leb_nle in E.
          pose proof (Nat.div_lt (length l) 2). lia. }
      apply nth_error_In in Np. destruct (quick_lengths l p Np) as [L1 L2].
      set (pv := key p) in *.
      assert (ML : forall x, In x (quick_sort_fuel key n (filter (fun x => py_lt (key x) pv) l)) ->
                py_le (key x) pv = true).
      { intros x Hx. apply (Permutation_in _ (quick_sort_fuel_perm n _)) in Hx.
        apply filter_In in Hx as [_ Hx]. rewrite py_lt_spec in Hx.
        apply py_le_false. destruct (py_le pv (key x)); simpl in Hx; congruence. }
      assert (MR : forall x, In x (quick_sort_fuel key n (filter (fun x => py_gt (key x) pv) l)) ->
                py_le pv (key x) = true).
      { intros x Hx. apply (Permutation_in _ (quick_sort_fuel_perm n _)) in Hx.
        apply filter_In in Hx as [_ Hx]. rewrite py_gt_spec, py_lt_spec in Hx.
        apply py_le_false. destruct (py_le (key x) pv); simpl in Hx; congruence. }
      assert (MM : forall x, In x (filter (fun x => py_eq (key x) pv) l) ->
                py_le (key x) pv = true /\ py_le pv (key x) = true).
      { intros x Hx. apply filter_In in Hx as [_ Hx]. apply py_eq_spec, Hx. }
      apply SS_app; [apply IH; lia| |].
      * apply SS_app; [|apply IH; lia|].
        -- apply SS_middle with pv. apply Forall_forall. intros x Hx.
           apply filter_In in Hx as [_ Hx]. exact Hx.
        -- intros x y Hx Hy. unfold R. apply py_le_trans with pv; [apply MM|apply MR]; auto.
      * intros x y Hx Hy. unfold R. apply py_le_trans with pv; [apply ML; auto|].
        apply in_app_or in Hy as [Hy|Hy]; [apply MM|apply MR]; auto.
Qed.

Lemma quick_sort_fuel_stable (n : nat) (l : list A) :
  length l <= n -> stable_wrt key l (quick_sort_fuel key n l).
Proof.
  revert l. induction n as [|n IH]; intros l Hn k; cbn [quick_sort_fuel]; [reflexivity|].
  destruct (length l <=? 1); [reflexivity|].
  destruct (nth_error l _) as [p|] eqn:Np; [|reflexivity].
  apply nth_error_In in Np. destruct (quick_lengths l p Np) as [L1 L2].
  set (pv := key p) in *.
  rewrite !filter_app.
  rewrite (IH (filter (fun x => py_lt (key x) pv) l) ltac:(lia) k).
  rewrite (IH (filter (fun x => py_gt (key x) pv) l) ltac:(lia) k).
  set (P := fun z => py_eq (key z) k).
  assert (Hr : forall x, P x = true ->
            py_lt (key x) pv = py_lt k pv /\ py_eq (key x) pv = py_eq k pv /\
            py_gt (key x) pv = py_gt k pv) by (intros x Px; apply pivot_resp, Px).
  rewrite (filter_class P _ (py_lt k pv)) by (intros x Px; apply (Hr x Px)).
  rewrite (filter_class P _ (py_eq k pv)) by (intros x Px; apply (Hr x Px)).
  rewrite (filter_class P _ (py_gt k pv)) by (intros x Px; apply (Hr x Px)).
  destruct (pivot_cases k pv) as [[-> [-> ->]]|[[-> [-> ->]]|[-> [-> ->]]]];
    simpl; rewrite ?app_nil_r; reflexivity.
Qed.

End QuickProofs.

(** ** Python floats as [Q] form a total preorder *)

#[export] Instance PyOrdLaws_Q : PyOrdLaws Q.
Proof.
  split; simpl.
  - intros a b. destruct (Qlt_le_dec a b) as [L|L].
    + left. apply Qle_bool_iff. apply Qlt_le_weak, L.
    + right. apply Qle_bool_iff, L.
  - intros a b c Hab Hbc. apply Qle_bool_iff in Hab, Hbc. apply Qle_bool_iff.
    apply Qle_trans with b; assumption.
  - reflexivity.
  - reflexivity.
  - intros a b. rewrite !Qle_bool_iff, Qeq_bool_iff. split.
    + intros E. rewrite E. split; apply Qle_refl.
    + intros [E1 E2]. apply Qle_antisym; assumption.
Qed.

(** ** The two disciplines obey [Leis] *)

Lemma leis_lista : Leis lista conteudo_lista.
Proof.
  split; simpl.
  - reflexivity.
  - intros c [co pr cm] s' E. unfold push_lista, conteudo_lista in *; simpl in *.
    destruct (String.eqb (tipo c) "corporativo");
      [|destruct (String.eqb (tipo c) "preferencial");
        [|destruct (String.eqb (tipo c) "comum")]];
      inversion E; subst; simpl; clear E.
    + rewrite <- app_assoc. simpl. apply Permutation_sym, Permutation_middle.
    + rewrite <- (app_assoc pr [c] cm). simpl. rewrite (app_assoc co pr).
      apply Permutation_sym, Permutation_cons_app. rewrite app_assoc. reflexivity.
    + rewrite !app_assoc. apply Permutation_sym, Permutation_cons_append.
  - intros c [[|x co] [|y pr] [|z cm]] s' E; unfold conteudo_lista;
      simpl in E; inversion E; subst; simpl; reflexivity.
  - intros [[|x co] [|y pr] [|z cm]] E; simpl in E; try discriminate; reflexivity.
  - intros [[|x co] [|y pr] [|z cm]]; unfold conteudo_lista, filas_nao_vazias; simpl;
      split; intros E; try discriminate; reflexivity.
Qed.

Lemma extrai_min_perm (h : list Entrada) (m : Entrada) (r : list Entrada) :
  extrai_min h = Some (m, r) -> Permutation h (m :: r).
Proof.
  revert m r. induction h as [|e h IH]; intros m r E; simpl in E; [discriminate|].
  destruct (extrai_min h) as [[m' r']|] eqn:Eh.
  - destruct (entrada_lt m' e); inversion E; subst.
    + rewrite (IH m r' eq_refl). apply perm_swap.
    + reflexivity.
  - inversion E; subst. destruct h as [|x h]; [reflexivity|].
    simpl in Eh. destruct (extrai_min h) as [[? ?]|]; [destruct (entrada_lt _ _)|]; discriminate.
Qed.

Lemma extrai_min_none (h : list Entrada) : extrai_min h = None -> h = [].
Proof.
  destruct h as [|e h]; simpl; [reflexivity|].
  destruct (extrai_min h) as [[? ?]|]; [destruct (entrada_lt _ _)|]; discriminate.
Qed.

Lemma leis_prioridade : Leis prioridade conteudo_heap.
Proof.
  split; simpl.
  - reflexivity.
  - intros c s s' E. unfold push_heap in E. inversion E; subst. clear E.
    unfold conteudo_heap; simpl. rewrite map_app. simpl.
    apply Permutation_sym, Permutation_cons_append.
  - intros c s s' E. unfold pop_heap in E.
    destruct (extrai_min (heap s)) as [[[[[p t] k] c'] r]|] eqn:Em; [|discriminate].
    inversion E; subst. unfold conteudo_heap; simpl.
    apply extrai_min_perm in Em. apply (Permutation_map ent_cli) in Em. exact Em.
  - intros s E. unfold pop_heap in E.
    destruct (extrai_min (heap s)) as [[[[[p t] k] c'] r]|] eqn:Em; [discriminate|].
    apply extrai_min_none in Em. unfold conteudo_heap. rewrite Em. reflexivity.
  - intros s. unfold heap_nao_vazio, conteudo_heap.
    destruct (heap s); simpl; split; intros; congruence.
Qed.

(** ** The simulation loop, for any discipline obeying [Leis] *)

Lemma py_max_ge (a b : Q) : (b <= py_max a b)%Q.
Proof.
  unfold py_max; simpl. destruct (Qle_bool b a) eqn:E; simpl.
  - apply Qle_bool_iff, E.
  - apply Qle_refl.
Qed.

Section LacoProofs.
Variable D : Disciplina.
Variable cont : d_estado D -> list Cliente.
Hypothesis L : Leis D cont.
(** [Inv]: what every successful [push] knows of its customer. *)
Variable Inv : Cliente -> Prop.
Hypothesis HQ : forall c (s s' : d_estado D), d_push c s = Ok s' -> Inv c.

Lemma admitir_spec (t : Q) (chs : list Cliente) (s : d_estado D) chs' s' :
  admitir D t chs s = Ok (chs', s') ->
  Permutation (cont s' ++ chs') (cont s ++ chs) /\
  (Forall Inv (cont s) -> Forall Inv (cont s')) /\
  length (cont s) <= length (cont s') /\
  (forall c, In c chs' -> In c chs).
Proof.
  revert s. induction chs as [|c r IH]; intros s E; cbn [admitir] in E.
  - inversion E; subst. repeat split; auto.
  - destruct (py_le (chegada c) t).
    + destruct (d_push c s) as [s1|e] eqn:Ep; [|discriminate].
      destruct (IH s1 E) as [P [F [Len I]]].
      pose proof (lei_push _ _ L _ _ _ Ep) as P1.
      repeat split.
      * rewrite P. rewrite P1. apply Permutation_middle.
      * intros Fs. apply F. apply (Permutation_Forall (Permutation_sym P1)).
        constructor; [apply (HQ _ _ _ Ep)|exact Fs].
      * apply Permutation_length in P1. simpl in P1. lia.
      * intros x Hx. right. apply I, Hx.
    + inversion E; subst. repeat split; auto.
Qed.

Lemma admitir_ok (t : Q) (chs : list Cliente) (s : d_estado D) :
  (forall c, In c chs -> forall s : d_estado D, exists s', d_push c s = Ok s') ->
  exists chs' s', admitir D t chs s = Ok (chs', s').
Proof.
  revert s. induction chs as [|c r IH]; intros s Hok; cbn [admitir]; [eauto|].
  destruct (py_le (chegada c) t); [|eauto].
  destruct (Hok c (or_introl eq_refl) s) as [s1 E]. rewrite E.
  apply IH. intros x Hx. apply Hok. right. exact Hx.
Qed.

Lemma admitir_cabeca (t : Q) (c : Cliente) (r : list Cliente) (s : d_estado D) chs' s' :
  py_le (chegada c) t = true -> admitir D t (c :: r) s = Ok (chs', s') -> cont s' <> [].
Proof.
  intros Hc E. cbn [admitir] in E. rewrite Hc in E.
  destruct (d_push c s) as [s1|e] eqn:Ep; [|discriminate].
  destruct (admitir_spec t r s1 chs' s' E) as [_ [_ [Len _]]].
  apply (lei_push _ _ L) in Ep. apply Permutation_length in Ep. simpl in Ep.
  intros N. rewrite N in Len. simpl in Len. lia.
Qed.

Lemma laco_spec (fuel : nat) (t : Q) (chs : list Cliente) (s : d_estado D) (ats : list Atendido) :
  length chs + length (cont s) < fuel ->
  Forall Inv (cont s) -> Forall Inv (map cli ats) -> Forall carimbo_ok ats ->
  exists r, laco D fuel t chs s ats = Some r /\
    (forall ats', r = Ok ats' ->
       Permutation (map cli ats') (map cli ats ++ cont s ++ chs) /\
       Forall Inv (map cli ats') /\ Forall carimbo_ok ats') /\
    ((forall c, In c chs -> forall s : d_estado D, exists s', d_push c s = Ok s') ->
       exists ats', r = Ok ats').
Proof.
  revert t chs s ats. induction fuel as [|f IH]; intros t chs s ats Hlt Fs Fa Ca; [lia|].
  cbn [laco].
  destruct (negb (nao_vazia chs) && negb (d_nao_vazia s)) eqn:Ex.
  { exists (Ok ats). split; [reflexivity|]. split; [|eauto].
    intros ats' E. inversion E; subst ats'.
    apply andb_true_iff in Ex as [E1 E2]. apply negb_true_iff in E1, E2.
    apply (lei_nao_vazia _ _ L) in E2. rewrite E2.
    destruct chs; [|discriminate]. rewrite app_nil_r. auto. }
  set (t1 := match chs with
             | [] => t
             | c :: _ => if negb (d_nao_vazia s) then py_max t (chegada c) else t
             end).
  destruct (admitir D t1 chs s) as [[chs1 s1]|e] eqn:Ea.
  2:{ exists (Raise e). split; [reflexivity|]. split; [discriminate|].
      intros Hok. destruct (admitir_ok t1 chs s Hok) as [? [? E]]. congruence. }
  destruct (admitir_spec t1 chs s chs1 s1 Ea) as [P1 [F1 [Len1 I1]]].
  assert (Fs1 := F1 Fs).
  destruct (d_pop s1) as [[p s2]|] eqn:Ep.
  - pose proof (lei_pop _ _ L _ _ _ Ep) as P2.
    assert (Fp : Inv p /\ Forall Inv (cont s2)).
    { apply (Permutation_Forall P2) in Fs1. inversion Fs1; subst; auto. }
    destruct Fp as [Qp Fs2].
    set (inicio := py_max t1 (chegada p)).
    set (termino := (inicio + tempo_servico p)%Q).
    destruct (admitir D termino chs1 s2) as [[chs2 s3]|e] eqn:Eb.
    2:{ exists (Raise e). split; [reflexivity|]. split; [discriminate|].
        intros Hok. destruct (admitir_ok termino chs1 s2) as [? [? E]]; [|congruence].
        intros c Hc. apply Hok, I1, Hc. }
    destruct (admitir_spec termino chs1 s2 chs2 s3 Eb) as [P3 [F3 [Len3 I3]]].
    assert (Hm : length chs2 + length (cont s3) < f).
    { apply Permutation_length in P1, P2, P3. rewrite !length_app in *. simpl in P2. lia. }
    assert (Ca' : Forall carimbo_ok (ats ++ [mk_atendido p inicio termino])).
    { apply Forall_app; split; [exact Ca|]. constructor; [|constructor].
      split; [apply py_max_ge|reflexivity]. }
    assert (Fa' : Forall Inv (map cli (ats ++ [mk_atendido p inicio termino]))).
    { rewrite map_app. apply Forall_app; split; [exact Fa|]. constructor; [exact Qp|constructor]. }
    destruct (IH termino chs2 s3 _ Hm (F3 Fs2) Fa' Ca') as [r [Er [Hr Hok]]].
    exists r. split; [exact Er|]. split.
    + intros ats' E. destruct (Hr ats' E) as [P [Fq Fc]]. split; [|auto].
      rewrite P, map_app, <- app_assoc. apply Permutation_app_head.
      simpl. rewrite P3, <- P1, P2. reflexivity.
    + intros Hc. apply Hok. intros c Hin. apply Hc, I1, I3, Hin.
  - apply (lei_pop_none _ _ L) in Ep.
    destruct chs1 as [|c1 chs1'].
    + exists (Ok ats). split; [reflexivity|]. split; [|eauto].
      intros ats' E. inversion E; subst ats'.
      rewrite Ep in P1. simpl in P1. apply Permutation_nil in P1.
      rewrite P1, app_nil_r. auto.
    + exfalso. destruct chs as [|c0 r0]; [simpl in Ea; congruence|].
      destruct (d_nao_vazia s) eqn:Ns.
      * assert (cont s <> []) by (intros N; apply (lei_nao_vazia _ _ L) in N; congruence).
        destruct (cont s) eqn:Cs; [congruence|].
        rewrite Ep in Len1. simpl in Len1. lia.
      * apply (admitir_cabeca t1 c0 r0 s (c1 :: chs1') s1); [|exact Ea|exact Ep].
        subst t1. simpl. apply Qle_bool_iff, py_max_ge.
Qed.

Lemma executa_spec (chs : list Cliente) :
  exists r, executa D chs = Some r /\
    (forall ats, r = Ok ats ->
       Permutation (map cli ats) chs /\ Forall Inv (map cli ats) /\ Forall carimbo_ok ats) /\
    ((forall c, In c chs -> forall s : d_estado D, exists s', d_push c s = Ok s') -> exists ats, r = Ok ats).
Proof.
  unfold executa.
  destruct (laco_spec (S (length chs)) 0 chs d_vazio [])
    as [r [E [H1 H2]]]; rewrite ?(lei_vazio _ _ L); simpl; auto; try lia.
  exists r. split; [exact E|]. split; [|exact H2].
  intros ats Ea. destruct (H1 ats Ea) as [P F]. split; [|exact F].
  rewrite P. rewrite (lei_vazio _ _ L). reflexivity.
Qed.

End LacoProofs.

(** ** [simular] as a whole *)

Lemma ordena_perm (alg : string) (clientes : list Cliente) :
  Permutation (ordena_chegadas alg clientes) clientes.
Proof.
  unfold ordena_chegadas, merge_sort, quick_sort.
  destruct (String.eqb alg "merge");
    [apply merge_sort_fuel_perm | apply quick_sort_fuel_perm].
Qed.

Lemma push_lista_reconhecido (c : Cliente) (f f' : Filas) :
  push_lista c f = Ok f' -> reconhecido c = true.
Proof.
  unfold push_lista, reconhecido.
  destruct (String.eqb (tipo c) "corporativo"), (String.eqb (tipo c) "preferencial"),
    (String.eqb (tipo c) "comum"); simpl; congruence.
Qed.

Lemma push_lista_ok (c : Cliente) (f : Filas) :
  reconhecido c = true -> exists f', push_lista c f = Ok f'.
Proof.
  unfold push_lista, reconhecido.
  destruct (String.eqb (tipo c) "corporativo"), (String.eqb (tipo c) "preferencial"),
    (String.eqb (tipo c) "comum"); simpl; try discriminate; eauto.
Qed.

Lemma simular_spec (clientes : list Cliente) (est alg rr : string) (undo : bool) :
  exists r, simular clientes est alg rr undo = Some r /\
    (forall st ats u, r = Ok (st, ats, u) ->
       Permutation (map cli ats) clientes /\ Forall carimbo_ok ats /\
       (String.eqb est "lista" = true -> Forall (fun c => reconhecido c = true) (map cli ats))) /\
    ((String.eqb est "lista" = false \/ Forall (fun c => reconhecido c = true) clientes) ->
       exists st ats u, r = Ok (st, ats, u)).
Proof.
  unfold simular. set (chs := ordena_chegadas alg clientes).
  assert (Pc : Permutation chs clientes) by apply ordena_perm.
  destruct (String.eqb est "lista") eqn:Est.
  - destruct (executa_spec lista conteudo_lista leis_lista (fun c => reconhecido c = true)
                push_lista_reconhecido chs) as [r [E [H1 H2]]].
    rewrite E. destruct r as [ats|e].
    + eexists; split; [reflexivity|]. split; [|eauto].
      intros st ats' u Eq. inversion Eq; subst.
      destruct (H1 ats' eq_refl) as [P [F C]]. split; [|auto]. rewrite P. exact Pc.
    + eexists; split; [reflexivity|]. split; [intros; discriminate|].
      intros [N|F]; [discriminate|].
      destruct H2 as [? Eq]; [|discriminate].
      intros c Hc s. apply push_lista_ok.
      rewrite Forall_forall in F. apply F. apply (Permutation_in _ Pc Hc).
  - destruct (executa_spec prioridade conteudo_heap leis_prioridade (fun _ => True)
                (fun _ _ _ _ => I) chs) as [r [E [H1 H2]]].
    rewrite E. destruct r as [ats|e].
    + eexists; split; [reflexivity|]. split; [|eauto].
      intros st ats' u Eq. inversion Eq; subst.
      destruct (H1 ats' eq_refl) as [P [F C]]. split; [|split; [auto|discriminate]].
      rewrite P. exact Pc.
    + exfalso. destruct H2 as [? Eq]; [|discriminate].
      intros c _ s. simpl. unfold push_heap. eauto.
Qed.

(** [str.lower] is idempotent on ASCII strings. *)
Lemma lower_ascii_idem (c : ascii) : lower_ascii (lower_ascii c) = lower_ascii c.
Proof. destruct c as [[] [] [] [] [] [] [] []]; reflexivity. Qed.

Lemma lower_idem (s : string) : lower (lower s) = lower s.
Proof. induction s as [|c s IH]; simpl; [reflexivity|]. rewrite lower_ascii_idem, IH. reflexivity. Qed.

(** ** Priority order of the two [pop_next]s *)

Lemma alcancavel_lista (f : Filas) : alcancavel lista f -> filas_ok f.
Proof.
  induction 1 as [|c s s' _ IH E|c s s' _ IH E]; simpl in *.
  - repeat split; constructor.
  - destruct s as [co pr cm]. destruct IH as [F1 [F2 F3]].
    unfold push_lista in E; simpl in E.
    destruct (String.eqb (tipo c) "corporativo") eqn:T1;
      [|destruct (String.eqb (tipo c) "preferencial") eqn:T2;
        [|destruct (String.eqb (tipo c) "comum") eqn:T3]];
      inversion E; subst; clear E;
      repeat split; simpl; auto; apply Forall_app; split; auto;
      constructor; auto; apply String.eqb_eq; assumption.
  - destruct s as [[|x co] [|y pr] [|z cm]]; destruct IH as [F1 [F2 F3]];
      simpl in E; inversion E; subst;
      repeat split; simpl; auto; try constructor;
      solve [inversion F1; auto | inversion F2; auto | inversion F3; auto].
Qed.

Lemma rank_de (t : string) (l : list Cliente) (c : Cliente) :
  Forall (fun c => tipo c = t) l -> In c l -> rank c = tipo_prioridade t.
Proof.
  intros F Hc. rewrite Forall_forall in F. unfold rank. rewrite (F c Hc). reflexivity.
Qed.

Lemma pop_lista_min (f f' : Filas) (c : Cliente) :
  filas_ok f -> pop_from_filas_deque f = Some (c, f') ->
  forall c', In c' (conteudo_lista f) -> (rank c <= rank c')%Z.
Proof.
  intros [F1 [F2 F3]] E c' Hc'. unfold conteudo_lista in Hc'.
  apply in_app_or in Hc' as [H|H]; [|apply in_app_or in H as [H|H]];
    [rewrite (rank_de _ _ _ F1 H) | rewrite (rank_de _ _ _ F2 H) | rewrite (rank_de _ _ _ F3 H)];
    destruct f as [[|x co] [|y pr] [|z cm]]; cbn in E, F1, F2, F3, H;
    inversion E; subst; try contradiction;
    match goal with
    | F : Forall (fun c => tipo c = ?t) (c :: _) |- _ =>
        rewrite (rank_de t _ c F (or_introl eq_refl))
    end; apply Z.leb_le; vm_compute; reflexivity.
Qed.

Lemma entrada_lt_prio (a b : Entrada) :
  entrada_lt a b = true -> (ent_prio a <= ent_prio b)%Z.
Proof.
  destruct a as [[[p1 t1] k1] c1], b as [[[p2 t2] k2] c2]. unfold entrada_lt; simpl.
  destruct (Z.eqb p1 p2) eqn:E.
  - apply Z.eqb_eq in E. lia.
  - intros H. apply Z.ltb_lt in H. lia.
Qed.

Lemma entrada_nlt_prio (a b : Entrada) :
  entrada_lt a b = false -> (ent_prio b <= ent_prio a)%Z.
Proof.
  destruct a as [[[p1 t1] k1] c1], b as [[[p2 t2] k2] c2]. unfold entrada_lt; simpl.
  destruct (Z.eqb p1 p2) eqn:E.
  - apply Z.eqb_eq in E. lia.
  - intros H. apply Z.ltb_ge in H. lia.
Qed.

Lemma extrai_min_prio (h : list Entrada) (m : Entrada) (r : list Entrada) :
  extrai_min h = Some (m, r) -> forall e, In e h -> (ent_prio m <= ent_prio e)%Z.
Proof.
  revert m r. induction h as [|e0 h IH]; intros m r E e He; simpl in E; [discriminate|].
  destruct (extrai_min h) as [[m' r']|] eqn:Eh.
  - destruct (entrada_lt m' e0) eqn:Lt; injection E; intros <- <-.
    + destruct He as [<-|He]; [apply entrada_lt_prio, Lt|apply (IH m' r' eq_refl e He)].
    + destruct He as [<-|He]; [lia|].
      apply entrada_nlt_prio in Lt. specialize (IH m' r' eq_refl e He). lia.
  - apply extrai_min_none in Eh. subst h. inversion E; subst.
    destruct He as [<-|[]]. lia.
Qed.

Lemma alcancavel_heap (s : Heap) : alcancavel prioridade s -> Forall entrada_ok (heap s).
Proof.
  induction 1 as [|c s s' _ IH E|c s s' _ IH E]; simpl in *.
  - constructor.
  - unfold push_heap in E. inversion E; subst; simpl.
    apply Forall_app; split; [exact IH|]. constructor; [|constructor].
    split; reflexivity.
  - unfold pop_heap in E.
    destruct (extrai_min (heap s)) as [[m r]|] eqn:Em; [|discriminate].
    destruct m as [[[p t] k] c']. inversion E; subst; simpl.
    apply extrai_min_perm in Em. apply (Permutation_Forall Em) in IH.
    inversion IH; assumption.
Qed.

Lemma pop_heap_min (s s' : Heap) (c : Cliente) :
  Forall entrada_ok (heap s) -> pop_heap s = Some (c, s') ->
  forall c', In c' (conteudo_heap s) -> (rank c <= rank c')%Z.
Proof.
  intros F E c' Hc'. unfold pop_heap in E.
  destruct (extrai_min (heap s)) as [[m r]|] eqn:Em; [|discriminate].
  destruct m as [[[p t] k] c0] eqn:Hm. inversion E; subst c0 s'.
  unfold conteudo_heap in Hc'. apply in_map_iff in Hc' as [e [<- He]].
  rewrite Forall_forall in F.
  assert (Ok1 := F _ (Permutation_in _ (Permutation_sym (extrai_min_perm _ _ _ Em)) (or_introl eq_refl))).
  destruct (F e He) as [Pe _]. destruct Ok1 as [Pm _]. simpl in Pm.
  rewrite <- Pe, <- Pm.
  change p with (ent_prio (p, t, k, c)). apply (extrai_min_prio _ _ _ Em e He).
Qed.

(** ** Two disciplines in lock-step give the same run *)

Section Simulacao2.
Variables D1 D2 : Disciplina.
(** [Rel rem s1 s2]: the two queue states while [rem] is still to arrive. *)
Variable Rel : list Cliente -> d_estado D1 -> d_estado D2 -> Prop.
Hypothesis H_nao_vazia : forall rem s1 s2, Rel rem s1 s2 -> d_nao_vazia s1 = d_nao_vazia s2.
Hypothesis H_push : forall c rem s1 s2, Rel (c :: rem) s1 s2 ->
  exists s1' s2', d_push c s1 = Ok s1' /\ d_push c s2 = Ok s2' /\ Rel rem s1' s2'.
Hypothesis H_pop : forall rem s1 s2, Rel rem s1 s2 ->
  (d_pop s1 = None /\ d_pop s2 = None) \/
  exists c s1' s2', d_pop s1 = Some (c, s1') /\ d_pop s2 = Some (c, s2') /\ Rel rem s1' s2'.

Lemma admitir_sim (t : Q) (rem : list Cliente) (s1 : d_estado D1) (s2 : d_estado D2) :
  Rel rem s1 s2 ->
  exists rem' s1' s2', admitir D1 t rem s1 = Ok (rem', s1') /\
    admitir D2 t rem s2 = Ok (rem', s2') /\ Rel rem' s1' s2'.
Proof.
  revert s1 s2. induction rem as [|c rem IH]; intros s1 s2 HR; cbn [admitir]; [eauto 6|].
  destruct (py_le (chegada c) t); [|eauto 6].
  destruct (H_push c rem s1 s2 HR) as [s1' [s2' [E1 [E2 HR']]]].
  rewrite E1, E2. apply IH, HR'.
Qed.

Lemma laco_sim (fuel : nat) (t : Q) (rem : list Cliente) (s1 : d_estado D1) (s2 : d_estado D2)
  (ats : list Atendido) :
  Rel rem s1 s2 -> laco D1 fuel t rem s1 ats = laco D2 fuel t rem s2 ats.
Proof.
  revert t rem s1 s2 ats. induction fuel as [|f IH]; intros t rem s1 s2 ats HR; [reflexivity|].
  cbn [laco]. rewrite (H_nao_vazia _ _ _ HR).
  destruct (negb (nao_vazia rem) && negb (d_nao_vazia s2)); [reflexivity|].
  set (t1 := match rem with
             | [] => t
             | c :: _ => if negb (d_nao_vazia s2) then py_max t (chegada c) else t
             end).
  destruct (admitir_sim t1 rem s1 s2 HR) as [rem1 [s1' [s2' [E1 [E2 HR1]]]]].
  rewrite E1, E2.
  destruct (H_pop _ _ _ HR1) as [[P1 P2]|[c [u1 [u2 [P1 [P2 HR2]]]]]]; rewrite P1, P2.
  - destruct rem1; [reflexivity|]. apply IH, HR1.
  - destruct (admitir_sim ((py_max t1 (chegada c)) + tempo_servico c)%Q rem1 u1 u2 HR2)
      as [rem2 [v1 [v2 [F1 [F2 HR3]]]]].
    rewrite F1, F2. apply IH, HR3.
Qed.

Lemma executa_sim (chs : list Cliente) :
  Rel chs d_vazio d_vazio -> executa D1 chs = executa D2 chs.
Proof. intros HR. unfold executa. apply laco_sim, HR. Qed.

End Simulacao2.

(** ** 'lista' and 'prioridade' in lock-step *)

Lemma rank_reconhecido (c : Cliente) :
  reconhecido c = true ->
  (tipo c = "corporativo"%string /\ rank c = 1%Z) \/
  (tipo c = "preferencial"%string /\ rank c = 2%Z) \/
  (tipo c = "comum"%string /\ rank c = 3%Z).
Proof.
  unfold reconhecido, rank.
  destruct (String.eqb (tipo c) "corporativo") eqn:T1;
    [|destruct (String.eqb (tipo c) "preferencial") eqn:T2;
      [|destruct (String.eqb (tipo c) "comum") eqn:T3]]; simpl; intros H; try discriminate;
    [left|right; left|right; right];
    match goal with T : String.eqb _ _ = true |- _ => apply String.eqb_eq in T; rewrite T end;
    split; reflexivity.
Qed.

Lemma SS_app_rel {A} (R : A -> A -> Prop) (l1 l2 : list A) :
  StronglySorted R l1 -> StronglySorted R l2 ->
  (forall x y, In x l1 -> In y l2 -> R x y) -> StronglySorted R (l1 ++ l2).
Proof.
  induction l1 as [|a l1 IH]; intros S1 S2 Hxy; simpl; [exact S2|].
  inversion S1; subst. constructor.
  - apply IH; auto. intros; apply Hxy; simpl; auto.
  - apply Forall_app; split; auto.
    apply Forall_forall. intros y Hy. apply Hxy; simpl; auto.
Qed.

Lemma SS_remove {A} (R : A -> A -> Prop) (l1 l2 : list A) (y : A) :
  StronglySorted R (l1 ++ y :: l2) -> StronglySorted R (l1 ++ l2).
Proof.
  induction l1 as [|a l1 IH]; simpl; intros S.
  - inversion S; assumption.
  - inversion S as [|? ? S' F]; subst. constructor; [apply IH, S'|].
    apply Forall_app in F as [F1 F2]. inversion F2; subst. apply Forall_app; auto.
Qed.

Lemma SS_suffix {A} (R : A -> A -> Prop) (l1 l2 : list A) :
  StronglySorted R (l1 ++ l2) -> StronglySorted R l2.
Proof. induction l1; simpl; intros S; [exact S|]. apply IHl1. inversion S; assumption. Qed.

Lemma filter_split {A} (f : A -> bool) (h : list A) (y : A) (ys : list A) :
  filter f h = y :: ys ->
  exists h1 h2, h = h1 ++ y :: h2 /\ filter f h1 = [] /\ f y = true /\ filter f h2 = ys.
Proof.
  induction h as [|x h IH]; simpl; intros E; [discriminate|].
  destruct (f x) eqn:Fx.
  - inversion E; subst. exists [], h. auto.
  - destruct (IH E) as [h1 [h2 [-> [F1 [Fy F2]]]]].
    exists (x :: h1), h2. simpl. rewrite Fx. auto.
Qed.

Lemma extrai_min_split (h1 h2 : list Entrada) (y : Entrada) :
  (forall x, In x h1 -> entrada_lt y x = true) ->
  (forall x, In x h2 -> entrada_lt x y = false) ->
  extrai_min (h1 ++ y :: h2) = Some (y, h1 ++ h2).
Proof.
  intros H1 H2. induction h1 as [|x h1 IH]; simpl.
  - destruct (extrai_min h2) as [[m r]|] eqn:E.
    + apply extrai_min_perm in E.
      rewrite (H2 m (Permutation_in _ (Permutation_sym E) (or_introl eq_refl))). reflexivity.
    + apply extrai_min_none in E. subst. reflexivity.
  - rewrite IH by (intros; apply H1; simpl; auto).
    rewrite (H1 x (or_introl eq_refl)). reflexivity.
Qed.

Lemma pop_balde (r : Z) (h : list Entrada) (y : Entrada) (ys : list Entrada) :
  StronglySorted antes h ->
  (forall e, In e h -> (r <= ent_prio e)%Z) ->
  filter (fun e => Z.eqb (ent_prio e) r) h = y :: ys ->
  exists h1 h2, h = h1 ++ y :: h2 /\ extrai_min h = Some (y, h1 ++ h2) /\
    filter (fun e => Z.eqb (ent_prio e) r) (h1 ++ h2) = ys /\
    (forall r', r' <> r ->
       filter (fun e => Z.eqb (ent_prio e) r') (h1 ++ h2) =
       filter (fun e => Z.eqb (ent_prio e) r') h).
Proof.
  intros S Hge E.
  destruct (filter_split _ h y ys E) as [h1 [h2 [-> [F1 [Fy F2]]]]].
  apply Z.eqb_eq in Fy.
  exists h1, h2. split; [reflexivity|]. split; [|split].
  - apply extrai_min_split.
    + intros x Hx.
      assert (Px : Z.eqb (ent_prio x) r = false).
      { destruct (Z.eqb (ent_prio x) r) eqn:Ex; [|reflexivity].
        assert (In x (filter (fun e => Z.eqb (ent_prio e) r) h1)) by (apply filter_In; auto).
        rewrite F1 in H. destruct H. }
      apply Z.eqb_neq in Px.
      assert (Gx := Hge x (in_or_app _ _ _ (or_introl Hx))).
      destruct y as [[[p1 t1] k1] c1], x as [[[p2 t2] k2] c2]. simpl in *.
      unfold entrada_lt; simpl.
      replace (Z.eqb p1 p2) with false by (symmetry; apply Z.eqb_neq; lia).
      apply Z.ltb_lt. lia.
    + intros x Hx.
      assert (Gx := Hge x (in_or_app h1 (y :: h2) x (or_intror (or_intror Hx)))).
      apply SS_suffix in S. apply StronglySorted_inv in S as [_ Fa].
      rewrite Forall_forall in Fa. destruct (Fa x Hx) as [Tle Klt].
      destruct y as [[[p1 t1] k1] c1], x as [[[p2 t2] k2] c2]. simpl in *.
      unfold entrada_lt; simpl.
      subst r. destruct (Z.eqb p2 p1) eqn:Ep.
      * destruct (Qeq_bool t2 t1) eqn:Et.
        -- replace (Z.eqb k2 k1) with false by (symmetry; apply Z.eqb_neq; lia).
           apply Z.ltb_ge. lia.
        -- apply Qle_bool_iff in Tle. rewrite Tle. reflexivity.
      * apply Z.eqb_neq in Ep. apply Z.ltb_ge. lia.
  - rewrite filter_app, F1, F2. reflexivity.
  - intros r' Hr'. rewrite !filter_app. simpl.
    replace (Z.eqb (ent_prio y) r') with false by (symmetry; apply Z.eqb_neq; lia).
    reflexivity.
Qed.

Lemma filter_nil_all {A} (f : A -> bool) (h : list A) :
  filter f h = [] -> forall e, In e h -> f e = false.
Proof.
  intros E e He. destruct (f e) eqn:Fe; [|reflexivity].
  assert (In e (filter f h)) by (apply filter_In; auto). rewrite E in H. destruct H.
Qed.

Lemma inv_prio (rem : list Cliente) (h : Heap) :
  inv_heap rem h -> forall e, In e (heap h) ->
  ent_prio e = 1%Z \/ ent_prio e = 2%Z \/ ent_prio e = 3%Z.
Proof.
  intros [_ [_ [W _]]] e He. rewrite Forall_forall in W.
  destruct (W e He) as [[Pe _] [Re _]]. rewrite Pe.
  destruct (rank_reconhecido _ Re) as [[_ ->]|[[_ ->]|[_ ->]]]; auto.
Qed.

Lemma inv_remove (rem : list Cliente) (h : Heap) (h1 h2 : list Entrada) (y : Entrada) :
  inv_heap rem h -> heap h = h1 ++ y :: h2 -> inv_heap rem (mk_heap (h1 ++ h2) (counter h)).
Proof.
  intros [R1 [R2 [W [S B]]]] Eh. rewrite Eh in W, S, B.
  repeat split; simpl; auto.
  - apply Forall_app in W as [W1 W2]. inversion W2; subst. apply Forall_app; auto.
  - apply SS_remove in S. exact S.
  - intros e c He Hc. apply B; [|exact Hc].
    apply in_app_or in He as [He|He]; apply in_or_app; simpl; auto.
Qed.

Lemma pop_step (rem : list Cliente) (r : Z) (h : Heap) (y : Entrada) (ys : list Entrada) :
  inv_heap rem h ->
  (forall e, In e (heap h) -> (r <= ent_prio e)%Z) ->
  filter (fun e => Z.eqb (ent_prio e) r) (heap h) = y :: ys ->
  exists h', pop_heap h = Some (ent_cli y, h') /\ inv_heap rem h' /\
    balde r h' = map ent_cli ys /\ (forall r', r' <> r -> balde r' h' = balde r' h).
Proof.
  intros I Hge E.
  assert (S : StronglySorted antes (heap h)) by apply I.
  destruct (pop_balde r (heap h) y ys S Hge E) as [h1 [h2 [Eh [Em [Fr Fo]]]]].
  exists (mk_heap (h1 ++ h2) (counter h)). split; [|split; [|split]].
  - unfold pop_heap. rewrite Em. destruct y as [[[p t] k] c]. reflexivity.
  - apply (inv_remove rem h h1 h2 y I Eh).
  - unfold balde; simpl. rewrite Fr. reflexivity.
  - intros r' Hr'. unfold balde; simpl. rewrite (Fo r' Hr'). reflexivity.
Qed.

Lemma pop_rel (rem : list Cliente) (f : Filas) (h : Heap) :
  rel_filas_heap rem f h ->
  (pop_from_filas_deque f = None /\ pop_heap h = None) \/
  exists c f' h', pop_from_filas_deque f = Some (c, f') /\ pop_heap h = Some (c, h') /\
    rel_filas_heap rem f' h'.
Proof.
  intros [I ->]. assert (Pr := inv_prio rem h I).
  unfold pop_from_filas_deque. cbn [filas_de f_corporativo f_preferencial f_comum].
  destruct (filter (fun e => Z.eqb (ent_prio e) 1) (heap h)) as [|y ys] eqn:E1.
  2:{ destruct (pop_step rem 1 h y ys I) as [h' [P [I' [Br Bo]]]]; [|exact E1|].
      { intros e He. destruct (Pr e He) as [->|[->| ->]]; lia. }
      assert (B1 : balde 1 h = ent_cli y :: map ent_cli ys) by (unfold balde; rewrite E1; reflexivity).
      rewrite B1. right. do 3 eexists. split; [reflexivity|]. split; [exact P|]. split; [exact I'|].
      unfold filas_de. rewrite Br, (Bo 2%Z), (Bo 3%Z) by lia. reflexivity. }
  assert (B1 : balde 1 h = []) by (unfold balde; rewrite E1; reflexivity).
  assert (N1 := filter_nil_all _ _ E1). rewrite B1.
  destruct (filter (fun e => Z.eqb (ent_prio e) 2) (heap h)) as [|y ys] eqn:E2.
  2:{ destruct (pop_step rem 2 h y ys I) as [h' [P [I' [Br Bo]]]]; [|exact E2|].
      { intros e He. specialize (N1 e He). apply Z.eqb_neq in N1.
        destruct (Pr e He) as [E|[E|E]]; rewrite E in *; lia. }
      assert (B2 : balde 2 h = ent_cli y :: map ent_cli ys) by (unfold balde; rewrite E2; reflexivity).
      rewrite B2. right. do 3 eexists. split; [reflexivity|]. split; [exact P|]. split; [exact I'|].
      unfold filas_de. rewrite Br, (Bo 1%Z), (Bo 3%Z), B1 by lia. reflexivity. }
  assert (B2 : balde 2 h = []) by (unfold balde; rewrite E2; reflexivity).
  assert (N2 := filter_nil_all _ _ E2). rewrite B2.
  destruct (filter (fun e => Z.eqb (ent_prio e) 3) (heap h)) as [|y ys] eqn:E3.
  2:{ destruct (pop_step rem 3 h y ys I) as [h' [P [I' [Br Bo]]]]; [|exact E3|].
      { intros e He. specialize (N1 e He). specialize (N2 e He).
        apply Z.eqb_neq in N1. apply Z.eqb_neq in N2.
        destruct (Pr e He) as [E|[E|E]]; rewrite E in *; lia. }
      assert (B3 : balde 3 h = ent_cli y :: map ent_cli ys) by (unfold balde; rewrite E3; reflexivity).
      rewrite B3. right. do 3 eexists. split; [reflexivity|]. split; [exact P|]. split; [exact I'|].
      unfold filas_de. rewrite Br, (Bo 1%Z), (Bo 2%Z), B1, B2 by lia. reflexivity. }
  assert (B3 : balde 3 h = []) by (unfold balde; rewrite E3; reflexivity).
  assert (N3 := filter_nil_all _ _ E3). rewrite B3.
  left. split; [reflexivity|].
  destruct (heap h) as [|e t] eqn:Eh.
  - unfold pop_heap. rewrite Eh. reflexivity.
  - exfalso. assert (He : In e (heap h)) by (rewrite Eh; left; reflexivity).
    rewrite <- Eh in N1, N2, N3.
    specialize (N1 e He). specialize (N2 e He). specialize (N3 e He).
    apply Z.eqb_neq in N1. apply Z.eqb_neq in N2. apply Z.eqb_neq in N3.
    destruct (Pr e (or_introl eq_refl)) as [E|[E|E]]; contradiction.
Qed.

Lemma balde_push (r : Z) (h : Heap) (c : Cliente) :
  balde r (mk_heap (heap h ++ [(rank c, chegada c, counter h, c)]) (counter h + 1)) =
  balde r h ++ (if Z.eqb (rank c) r then [c] else []).
Proof.
  unfold balde. cbn [heap]. rewrite filter_app, map_app. cbn [filter ent_prio].
  destruct (Z.eqb (rank c) r); reflexivity.
Qed.

Lemma push_rel (c : Cliente) (rem : list Cliente) (f : Filas) (h : Heap) :
  rel_filas_heap (c :: rem) f h ->
  exists f' h', push_lista c f = Ok f' /\ push_heap c h = Ok h' /\ rel_filas_heap rem f' h'.
Proof.
  intros [[R1 [R2 [W [S B]]]] ->].
  inversion R1 as [|? ? Rc R1']; subst.
  apply StronglySorted_inv in R2 as [R2' Fc].
  set (h' := mk_heap (heap h ++ [(rank c, chegada c, counter h, c)]) (counter h + 1)).
  assert (I' : inv_heap rem h').
  { repeat split; auto; cbn [heap counter h'].
    - apply Forall_app; split.
      + eapply Forall_impl; [|exact W]. intros e [Ha [Hb Hc]].
        split; [exact Ha|split; [exact Hb|lia]].
      + constructor; [|constructor]. split; [split; reflexivity|split; [exact Rc|simpl; lia]].
    - apply SS_app_rel; [exact S|repeat constructor|].
      intros x y Hx [<-|[]]. split; simpl.
      + apply B; [exact Hx|left; reflexivity].
      + rewrite Forall_forall in W. apply W, Hx.
    - intros e c' He Hc'. apply in_app_or in He as [He|[<-|[]]].
      + apply B; [exact He|right; exact Hc'].
      + rewrite Forall_forall in Fc. apply Qle_bool_iff, (Fc c' Hc'). }
  exists (filas_de h'), h'. split; [|split; [reflexivity|split; [exact I'|reflexivity]]].
  unfold filas_de, h'. rewrite !balde_push.
  unfold push_lista. cbn [f_corporativo f_preferencial f_comum filas_de].
  destruct (rank_reconhecido c Rc) as [[T Rk]|[[T Rk]|[T Rk]]]; rewrite T, Rk; simpl;
    rewrite ?app_nil_r; reflexivity.
Qed.

Lemma nao_vazia_rel (rem : list Cliente) (f : Filas) (h : Heap) :
  rel_filas_heap rem f h -> filas_nao_vazias f = heap_nao_vazio h.
Proof.
  intros [I ->]. assert (Pr := inv_prio rem h I).
  unfold filas_nao_vazias, heap_nao_vazio, filas_de, balde. cbn [f_corporativo f_preferencial f_comum].
  destruct (heap h) as [|e t]; [reflexivity|].
  cbn [filter]. destruct (Pr e (or_introl eq_refl)) as [E|[E|E]]; rewrite E; simpl;
    rewrite ?orb_true_r; reflexivity.
Qed.

(** With every customer of a known type and the arrivals sorted, the two
    disciplines produce the same run. *)
Lemma executa_lista_prioridade (chs : list Cliente) :
  Forall (fun c => reconhecido c = true) chs ->
  StronglySorted (fun a b => py_le (chegada a) (chegada b) = true) chs ->
  executa lista chs = executa prioridade chs.
Proof.
  intros R S. apply (executa_sim lista prioridade rel_filas_heap).
  - intros rem s1 s2 HR. apply (nao_vazia_rel rem s1 s2 HR).
  - intros c rem s1 s2 HR. apply (push_rel c rem s1 s2 HR).
  - intros rem s1 s2 HR. apply (pop_rel rem s1 s2 HR).
  - split; [|reflexivity]. repeat split; auto; simpl; try constructor.
    intros e c [].
Qed.

Lemma ordena_sorted (alg : string) (clientes : list Cliente) :
  StronglySorted (fun a b => py_le (chegada a) (chegada b) = true) (ordena_chegadas alg clientes).
Proof.
  unfold ordena_chegadas, merge_sort, quick_sort.
  destruct (String.eqb alg "merge");
    [apply merge_sort_fuel_sorted | apply quick_sort_fuel_sorted]; lia.
Qed.

(** * The claims *)

(** C1: on the spec's scenario with the 'lista' discipline (either sort),
    A is served in [0, 5] with wait 0, B in [5, 8] with wait 4, C in
    [8, 10] with wait 7; 3 served, total wait 11, mean wait 11/3, total
    service 10. *)
Theorem cenario_concreto :
  simular cenario "lista" "merge" "por_prioridade" false =
    Some (Ok (stats_cenario "merge", atendidos_cenario, [])) /\
  simular cenario "lista" "quick" "por_prioridade" false =
    Some (Ok (stats_cenario "quick", atendidos_cenario, [])) /\
  map espera atendidos_cenario = [0; 4; 7]%Q /\
  tempo_medio_espera (stats_cenario "merge") == 11 / 3.
Proof. repeat split; vm_compute; reflexivity. Qed.

(** C2: in every run (any discipline, any sort), every served customer
    starts no earlier than its arrival and ends exactly at start plus
    service time. *)
Theorem carimbos_corretos (clientes : list Cliente) (est alg rr : string) (undo : bool)
  (st : Estatisticas) (ats u : list Atendido) :
  simular clientes est alg rr undo = Some (Ok (st, ats, u)) ->
  forall a, In a ats ->
    (chegada (cli a) <= inicio_atendimento a)%Q /\
    termino_atendimento a = (inicio_atendimento a + tempo_servico (cli a))%Q.
Proof.
  intros E a Ha.
  destruct (simular_spec clientes est alg rr undo) as [r [Er [H1 _]]].
  rewrite E in Er. injection Er as <-.
  destruct (H1 st ats u eq_refl) as [_ [C _]].
  rewrite Forall_forall in C. apply C, Ha.
Qed.

Lemma carimbos_corretos_witness :
  simular cenario "prioridade" "quick" "por_prioridade" true =
    Some (Ok (mk_stats 3 11 (11 # 3) 10 "prioridade" "quick" "por_prioridade"
                (complexity_hint "quick"), atendidos_cenario, atendidos_cenario)) /\
  forall a, In a atendidos_cenario ->
    (chegada (cli a) <= inicio_atendimento a)%Q /\
    termino_atendimento a = (inicio_atendimento a + tempo_servico (cli a))%Q.
Proof.
  split; [vm_compute; reflexivity|].
  apply (carimbos_corretos cenario "prioridade" "quick" "por_prioridade" true
           (mk_stats 3 11 (11 # 3) 10 "prioridade" "quick" "por_prioridade"
              (complexity_hint "quick")) atendidos_cenario atendidos_cenario).
  vm_compute. reflexivity.
Defined.

(** C3: when every customer's type is recognized, every run (any
    discipline, any sort) succeeds and its served customers are a
    permutation of the input. *)
Theorem conservacao (clientes : list Cliente) (est alg rr : string) (undo : bool) :
  Forall (fun c => reconhecido c = true) clientes ->
  exists st ats u, simular clientes est alg rr undo = Some (Ok (st, ats, u)) /\
    Permutation (map cli ats) clientes.
Proof.
  intros R.
  destruct (simular_spec clientes est alg rr undo) as [r [Er [H1 H2]]].
  destruct (H2 (or_intror R)) as [st [ats [u ->]]].
  exists st, ats, u. split; [exact Er|]. apply (H1 st ats u eq_refl).
Qed.

Lemma conservacao_witness :
  Forall (fun c => reconhecido c = true) cenario /\
  exists st ats u, simular cenario "lista" "quick" "por_prioridade" false = Some (Ok (st, ats, u)) /\
    Permutation (map cli ats) cenario.
Proof.
  assert (R : Forall (fun c => reconhecido c = true) cenario)
    by (repeat constructor).
  split; [exact R|]. apply (conservacao cenario "lista" "quick" "por_prioridade" false R).
Defined.

(** C4: for every key function into a totally preordered key type, both
    sorts return a sorted permutation of their input, and [merge_sort]
    keeps equal keys in their original order. *)
Theorem sorts_corretos {A K : Type} `{PyOrdLaws K} (key : A -> K) (l : list A) :
  (sorted_by key (merge_sort key l) /\ Permutation (merge_sort key l) l /\
   stable_wrt key l (merge_sort key l)) /\
  (sorted_by key (quick_sort key l) /\ Permutation (quick_sort key l) l).
Proof.
  unfold sorted_by, merge_sort, quick_sort. repeat split.
  - apply StronglySorted_Sorted, merge_sort_fuel_sorted; lia.
  - apply merge_sort_fuel_perm.
  - apply merge_sort_fuel_stable; lia.
  - apply StronglySorted_Sorted, quick_sort_fuel_sorted; lia.
  - apply quick_sort_fuel_perm.
Qed.

Lemma sorts_corretos_witness :
  merge_sort chegada cenario = [cliente_A; cliente_B; cliente_C] /\
  ((sorted_by chegada (merge_sort chegada cenario) /\
    Permutation (merge_sort chegada cenario) cenario /\
    stable_wrt chegada cenario (merge_sort chegada cenario)) /\
   (sorted_by chegada (quick_sort chegada cenario) /\
    Permutation (quick_sort chegada cenario) cenario)).
Proof. split; [vm_compute; reflexivity|]. apply (sorts_corretos (K := Q) chegada cenario). Defined.

(** C5 (as amended): [quick_sort] is stable. Its three list comprehensions
    keep the input order inside each class, and the elements equal to the
    pivot form one class, so for every input and every key function into a
    totally preordered key type, elements with equal keys come out in their
    original relative order. *)
Theorem quick_sort_estavel {A K : Type} `{PyOrdLaws K} (key : A -> K) (l : list A) :
  stable_wrt key l (quick_sort key l).
Proof. unfold quick_sort. apply quick_sort_fuel_stable. lia. Qed.

Lemma quick_sort_estavel_witness :
  quick_sort chegada cenario = [cliente_A; cliente_B; cliente_C] /\
  stable_wrt chegada cenario (quick_sort chegada cenario).
Proof. split; [vm_compute; reflexivity|]. apply (quick_sort_estavel (K := Q) chegada cenario). Defined.

(** C5 (counterexample): there is no input sequence and key function for
    which [quick_sort] changes the relative order of equal keys. *)
Lemma quick_sort_instavel_refutado :
  ~ exists (l : list (nat * Q)) (key : nat * Q -> Q), ~ stable_wrt key l (quick_sort key l).
Proof.
  intros [l [key N]]. apply N. unfold quick_sort.
  apply (quick_sort_fuel_stable (K := Q)). lia.
Qed.

(** C6: under both disciplines, [pop_next] on any reachable queue returns a
    customer whose rank is at most the rank of every queued customer; so
    while a corporate customer is queued, no preferred or regular customer
    is dispatched. *)
Theorem prioridade_precede :
  (forall (f f' : Filas) (c : Cliente), alcancavel lista f ->
     pop_from_filas_deque f = Some (c, f') ->
     forall c', In c' (conteudo_lista f) -> (rank c <= rank c')%Z) /\
  (forall (s s' : Heap) (c : Cliente), alcancavel prioridade s ->
     pop_heap s = Some (c, s') ->
     forall c', In c' (conteudo_heap s) -> (rank c <= rank c')%Z).
Proof.
  split.
  - intros f f' c A P. apply (pop_lista_min f f' c (alcancavel_lista f A) P).
  - intros s s' c A P. apply (pop_heap_min s s' c (alcancavel_heap s A) P).
Qed.

Lemma prioridade_precede_witness :
  alcancavel lista (mk_filas [cliente_B] [] [cliente_A]) /\
  pop_from_filas_deque (mk_filas [cliente_B] [] [cliente_A]) =
    Some (cliente_B, mk_filas [] [] [cliente_A]) /\
  (rank cliente_B <= rank cliente_A)%Z.
Proof.
  assert (A : alcancavel lista (mk_filas [cliente_B] [] [cliente_A])).
  { apply (alc_push lista cliente_B (mk_filas [] [] [cliente_A])); [|vm_compute; reflexivity].
    apply (alc_push lista cliente_A filas_vazias); [apply alc_vazio|vm_compute; reflexivity]. }
  assert (P : pop_from_filas_deque (mk_filas [cliente_B] [] [cliente_A]) =
                Some (cliente_B, mk_filas [] [] [cliente_A])) by reflexivity.
  split; [exact A|]. split; [exact P|].
  apply (proj1 prioridade_precede _ _ cliente_B A P). simpl. right. left. reflexivity.
Defined.

(** C7: when every type is recognized and no two customers of one category
    share an arrival time, 'lista' and 'prioridade' (same sort) produce the
    same served sequence with the same timestamps. The second hypothesis is
    not used: the two disciplines agree on every input with recognized
    types. *)
Theorem lista_refina_prioridade (clientes : list Cliente) (alg rr : string) (undo : bool) :
  Forall (fun c => reconhecido c = true) clientes ->
  (forall c1 c2, In c1 clientes -> In c2 clientes -> c1 <> c2 ->
     tipo c1 = tipo c2 -> ~ (chegada c1 == chegada c2)%Q) ->
  atendidos_de (simular clientes "lista" alg rr undo) =
  atendidos_de (simular clientes "prioridade" alg rr undo).
Proof.
  intros R _. unfold simular. cbn [String.eqb Ascii.eqb Bool.eqb].
  rewrite (executa_lista_prioridade (ordena_chegadas alg clientes)).
  - destruct (executa prioridade (ordena_chegadas alg clientes)) as [[ats|e]|]; reflexivity.
  - apply (Permutation_Forall (Permutation_sym (ordena_perm alg clientes))), R.
  - apply ordena_sorted.
Qed.

Lemma lista_refina_prioridade_witness :
  Forall (fun c => reconhecido c = true) cenario /\
  (forall c1 c2, In c1 cenario -> In c2 cenario -> c1 <> c2 ->
     tipo c1 = tipo c2 -> ~ (chegada c1 == chegada c2)%Q) /\
  atendidos_de (simular cenario "lista" "merge" "por_prioridade" false) =
  atendidos_de (simular cenario "prioridade" "merge" "por_prioridade" false).
Proof.
  assert (R : Forall (fun c => reconhecido c = true) cenario) by (repeat constructor).
  assert (D : forall c1 c2, In c1 cenario -> In c2 cenario -> c1 <> c2 ->
     tipo c1 = tipo c2 -> ~ (chegada c1 == chegada c2)%Q).
  { intros c1 c2 H1 H2 Hne Ht. simpl in H1, H2.
    destruct H1 as [<-|[<-|[<-|[]]]]; destruct H2 as [<-|[<-|[<-|[]]]];
      try (exfalso; apply Hne; reflexivity); vm_compute in Ht; discriminate Ht. }
  split; [exact R|]. split; [exact D|].
  apply (lista_refina_prioridade cenario "merge" "por_prioridade" false R D).
Defined.

(** C8 (counterexample): a single customer of type "vip" under 'lista' is
    not dropped from the output: the run raises [KeyError] and returns no
    served sequence at all. *)
Lemma tipo_desconhecido_lista :
  simular [cliente_vip] "lista" "merge" "por_prioridade" false =
    Some (Raise (KeyError "vip")) /\
  ~ exists st ats u,
      simular [cliente_vip] "lista" "merge" "por_prioridade" false = Some (Ok (st, ats, u)).
Proof.
  assert (E : simular [cliente_vip] "lista" "merge" "por_prioridade" false =
                Some (Raise (KeyError "vip"))) by (vm_compute; reflexivity).
  split; [exact E|]. intros [st [ats [u E']]]. rewrite E in E'. discriminate E'.
Qed.

(** C8 (as amended): if the input holds a customer whose type is not one of
    corporativo, preferencial, comum, then under 'lista' the run raises an
    exception (the push [filas[cliente.tipo]] fails) and returns no output,
    while under 'prioridade' the run completes and serves that customer.
    A customer built by [Cliente.__init__] with such a type has rank 99. *)
Theorem tipo_desconhecido (clientes : list Cliente) (alg rr : string) (undo : bool) (c : Cliente) :
  In c clientes -> reconhecido c = false ->
  (exists e, simular clientes "lista" alg rr undo = Some (Raise e)) /\
  (exists st ats u, simular clientes "prioridade" alg rr undo = Some (Ok (st, ats, u)) /\
     In c (map cli ats)) /\
  (forall i nm tp ts ch, reconhecido (novo_cliente i nm tp ts ch) = false ->
     rank (novo_cliente i nm tp ts ch) = 99%Z).
Proof.
  intros Hin Hr. split; [|split].
  - destruct (simular_spec clientes "lista" alg rr undo) as [r [Er [H1 _]]].
    rewrite Er. destruct r as [[[st ats] u]|e]; [|eauto].
    destruct (H1 st ats u eq_refl) as [P [_ F]].
    specialize (F eq_refl). rewrite Forall_forall in F.
    rewrite (F c (Permutation_in _ (Permutation_sym P) Hin)) in Hr. discriminate Hr.
  - destruct (simular_spec clientes "prioridade" alg rr undo) as [r [Er [H1 H2]]].
    destruct (H2 (or_introl eq_refl)) as [st [ats [u ->]]].
    exists st, ats, u. split; [exact Er|].
    destruct (H1 st ats u eq_refl) as [P _].
    apply (Permutation_in _ (Permutation_sym P) Hin).
  - intros i nm tp ts ch. unfold reconhecido, rank, tipo_prioridade, novo_cliente.
    cbn [tipo]. rewrite lower_idem.
    destruct (String.eqb (lower tp) "corporativo"), (String.eqb (lower tp) "preferencial"),
      (String.eqb (lower tp) "comum"); simpl; congruence.
Qed.

Lemma tipo_desconhecido_witness :
  In cliente_vip [cliente_vip; cliente_A] /\ reconhecido cliente_vip = false /\
  ((exists e, simular [cliente_vip; cliente_A] "lista" "quick" "por_prioridade" false = Some (Raise e)) /\
   (exists st ats u, simular [cliente_vip; cliente_A] "prioridade" "quick" "por_prioridade" false =
      Some (Ok (st, ats, u)) /\ In cliente_vip (map cli ats)) /\
   (forall i nm tp ts ch, reconhecido (novo_cliente i nm tp ts ch) = false ->
      rank (novo_cliente i nm tp ts ch) = 99%Z)).
Proof.
  assert (I : In cliente_vip [cliente_vip; cliente_A]) by (left; reflexivity).
  assert (R : reconhecido cliente_vip = false) by (vm_compute; reflexivity).
  split; [exact I|]. split; [exact R|].
  apply (tipo_desconhecido [cliente_vip; cliente_A] "quick" "por_prioridade" false cliente_vip I R).
Defined.

(** C9 (counterexample): a customer with service time -3 is not rejected:
    the run succeeds and timestamps it with start 0 and end -3. *)
Lemma tempo_negativo_aceito :
  exists st u, simular [cliente_neg] "lista" "merge" "por_prioridade" false =
    Some (Ok (st, [mk_atendido cliente_neg 0 (-3)], u)).
Proof. eexists. eexists. vm_compute. reflexivity. Qed.

(** C10: the loop of [simular] ends on every input (the embedding runs it
    with a budget of one more turn than there are customers and the budget
    never runs out), and when every type is recognized (or the discipline
    is not 'lista') no step raises, so the run returns its output. *)
Theorem simular_termina (clientes : list Cliente) (est alg rr : string) (undo : bool) :
  simular clientes est alg rr undo <> None /\
  ((Forall (fun c => reconhecido c = true) clientes \/ String.eqb est "lista" = false) ->
   exists st ats u, simular clientes est alg rr undo = Some (Ok (st, ats, u))).
Proof.
  destruct (simular_spec clientes est alg rr undo) as [r [Er [_ H2]]].
  split.
  - rewrite Er. discriminate.
  - intros H. destruct (H2 (proj1 (or_comm _ _) H)) as [st [ats [u ->]]]. eauto.
Qed.

Lemma simular_termina_witness :
  Forall (fun c => reconhecido c = true) cenario /\
  simular cenario "lista" "merge" "por_prioridade" false =
    Some (Ok (stats_cenario "merge", atendidos_cenario, [])) /\
  simular cenario "lista" "merge" "por_prioridade" false <> None /\
  ((Forall (fun c => reconhecido c = true) cenario \/ String.eqb "lista" "lista" = false) ->
   exists st ats u, simular cenario "lista" "merge" "por_prioridade" false = Some (Ok (st, ats, u))).
Proof.
  split; [repeat constructor|].
  split; [vm_compute; reflexivity|].
  apply (simular_termina cenario "lista" "merge" "por_prioridade" false).
Defined.

(** * Further properties of the program *)

(** ** The two sorts agree *)

Section Unicidade.
Context {A K : Type} `{PyOrdLaws K}.
Variable key : A -> K.

Lemma py_eq_refl (a : K) : py_eq a a = true.
Proof. apply py_eq_spec. split; apply py_le_refl. Qed.

Lemma py_eq_sym (a b : K) : py_eq a b = py_eq b a.
Proof.
  destruct (py_eq a b) eqn:E1, (py_eq b a) eqn:E2; auto.
  - apply py_eq_spec in E1 as [? ?].
    assert (py_eq b a = true) by (apply py_eq_spec; auto). congruence.
  - apply py_eq_spec in E2 as [? ?].
    assert (py_eq a b = true) by (apply py_eq_spec; auto). congruence.
Qed.

(** Two lists sorted by [key] whose classes of equal keys are the same
    lists are equal. *)
Lemma ordenado_estavel_unico (l1 l2 : list A) :
  StronglySorted (fun x y => py_le (key x) (key y) = true) l1 ->
  StronglySorted (fun x y => py_le (key x) (key y) = true) l2 ->
  (forall k, filter (fun x => py_eq (key x) k) l1 = filter (fun x => py_eq (key x) k) l2) ->
  l1 = l2.
Proof.
  revert l2. induction l1 as [|x r1 IH]; intros l2 S1 S2 F.
  - destruct l2 as [|y r2]; [reflexivity|]. exfalso.
    specialize (F (key y)). simpl in F. rewrite py_eq_refl in F. discriminate.
  - destruct l2 as [|y r2].
    { exfalso. specialize (F (key x)). simpl in F. rewrite py_eq_refl in F. discriminate. }
    inversion S1 as [|? ? S1' F1]; subst. inversion S2 as [|? ? S2' F2]; subst.
    assert (Exy : x = y).
    { destruct (py_eq (key y) (key x)) eqn:E.
      - specialize (F (key x)). simpl in F. rewrite py_eq_refl, E in F.
        injection F; auto.
      - exfalso.
        assert (Hy : In y (x :: r1)).
        { assert (I : In y (filter (fun z => py_eq (key z) (key y)) (y :: r2)))
            by (simpl; rewrite py_eq_refl; left; reflexivity).
          rewrite <- F in I. apply filter_In in I. apply I. }
        assert (Hx : In x r2).
        { assert (I : In x (filter (fun z => py_eq (key z) (key x)) (x :: r1)))
            by (simpl; rewrite py_eq_refl; left; reflexivity).
          rewrite F in I. simpl in I. rewrite E in I. apply filter_In in I. apply I. }
        rewrite Forall_forall in F1, F2.
        pose proof (F2 x Hx) as Le1.
        destruct Hy as [<-|Hy].
        + rewrite py_eq_refl in E. discriminate.
        + pose proof (F1 y Hy) as Le2.
          assert (py_eq (key y) (key x) = true) by (apply py_eq_spec; auto). congruence. }
    subst y. f_equal. apply IH; auto.
    intros k. specialize (F k). simpl in F.
    destruct (py_eq (key x) k); [injection F; auto|exact F].
Qed.

Lemma merge_quick_iguais (l : list A) : merge_sort key l = quick_sort key l.
Proof.
  unfold merge_sort, quick_sort.
  apply ordenado_estavel_unico.
  - apply merge_sort_fuel_sorted. lia.
  - apply quick_sort_fuel_sorted. lia.
  - intros k. rewrite (merge_sort_fuel_stable key (length l) l ltac:(lia) k).
    rewrite (quick_sort_fuel_stable key (length l) l ltac:(lia) k). reflexivity.
Qed.

End Unicidade.

Lemma ordena_indep (a1 a2 : string) (clientes : list Cliente) :
  ordena_chegadas a1 clientes = ordena_chegadas a2 clientes.
Proof.
  unfold ordena_chegadas.
  destruct (String.eqb a1 "merge"), (String.eqb a2 "merge");
    rewrite ?(merge_quick_iguais (K := Q)); reflexivity.
Qed.

(** ** The served schedule *)

Lemma py_max_Qmax (a b : Q) : (py_max a b == Qmax a b)%Q.
Proof.
  unfold py_max; cbn. destruct (Qle_bool b a) eqn:E; simpl.
  - apply Qle_bool_iff in E. symmetry. apply Q.max_l, E.
  - assert (a <= b)%Q.
    { apply Qlt_le_weak, Qnot_le_lt. intros N. apply Qle_bool_iff in N. congruence. }
    symmetry. apply Q.max_r. assumption.
Qed.

Lemma last_cons {A : Type} (x : A) (l : list A) (d : A) : last (x :: l) d = last l x.
Proof.
  revert x d. induction l as [|y l IH]; intros x d; [reflexivity|].
  change (last (y :: l) d = last (y :: l) x). rewrite (IH y d), (IH y x). reflexivity.
Qed.

Lemma agenda_snoc (t0 : Q) (ats : list Atendido) (a : Atendido) :
  agenda t0 ats ->
  (inicio_atendimento a == Qmax (last (map termino_atendimento ats) t0) (chegada (cli a)))%Q ->
  termino_atendimento a = (inicio_atendimento a + tempo_servico (cli a))%Q ->
  agenda t0 (ats ++ [a]).
Proof.
  revert t0. induction ats as [|b r IH]; intros t0 Ag Hi Ht.
  - simpl in *. auto.
  - rewrite map_cons, last_cons in Hi. cbn [agenda app] in *.
    destruct Ag as [A1 [A2 A3]]. split; [exact A1|]. split; [exact A2|].
    apply IH; assumption.
Qed.

Section AgendaProofs.
Variable D : Disciplina.
Variable cont : d_estado D -> list Cliente.
Hypothesis L : Leis D cont.

(** [admitir] pushes a prefix of the arrivals, all due by [t]. *)
Lemma admitir_prefixo (t : Q) (chs : list Cliente) (s : d_estado D) chs' s' :
  admitir D t chs s = Ok (chs', s') ->
  exists pre, chs = pre ++ chs' /\ Permutation (cont s') (cont s ++ pre) /\
    Forall (fun c => py_le (chegada c) t = true) pre.
Proof.
  revert s. induction chs as [|c r IH]; intros s E; cbn [admitir] in E.
  - injection E as <- <-. exists []. rewrite !app_nil_r. auto.
  - destruct (py_le (chegada c) t) eqn:Le.
    + destruct (d_push c s) as [s1|e] eqn:Ep; [|discriminate].
      destruct (IH s1 E) as [pre [-> [P F]]].
      exists (c :: pre). split; [reflexivity|]. split; [|constructor; assumption].
      rewrite P, (lei_push _ _ L _ _ _ Ep). simpl. apply Permutation_middle.
    + injection E as <- <-. exists []. rewrite !app_nil_r. auto.
Qed.

Lemma laco_agenda (fuel : nat) (t : Q) (chs : list Cliente) (s : d_estado D)
  (ats ats' : list Atendido) :
  StronglySorted (fun a b => py_le (chegada a) (chegada b) = true) chs ->
  agenda 0 ats -> t = last (map termino_atendimento ats) 0%Q ->
  laco D fuel t chs s ats = Some (Ok ats') -> agenda 0 ats'.
Proof.
  revert t chs s ats. induction fuel as [|f IH]; intros t chs s ats S Ag Ht E;
    cbn [laco] in E; [discriminate|].
  destruct (negb (nao_vazia chs) && negb (d_nao_vazia s)) eqn:Ex.
  { injection E as <-. exact Ag. }
  set (t1 := match chs with
             | [] => t
             | c :: _ => if negb (d_nao_vazia s) then py_max t (chegada c) else t
             end) in E.
  destruct (admitir D t1 chs s) as [[chs1 s1]|e] eqn:Ea; [|discriminate].
  destruct (admitir_prefixo t1 chs s chs1 s1 Ea) as [pre [Echs [P1 F1]]].
  destruct (d_pop s1) as [[p s2]|] eqn:Ep.
  - destruct (admitir D (py_max t1 (chegada p) + tempo_servico p)%Q chs1 s2)
      as [[chs2 s3]|e] eqn:Eb; [|discriminate].
    destruct (admitir_prefixo _ chs1 s2 chs2 s3 Eb) as [pre2 [Echs1 _]].
    refine (IH _ chs2 s3 _ _ _ _ E).
    + apply (SS_suffix _ (pre ++ pre2)). rewrite <- app_assoc, <- Echs1, <- Echs. exact S.
    + apply agenda_snoc; [exact Ag| |reflexivity]. simpl. rewrite <- Ht.
      rewrite py_max_Qmax.
      destruct (d_nao_vazia s) eqn:Ns.
      * subst t1. destruct chs; reflexivity.
      * assert (Cs : cont s = []) by (apply (lei_nao_vazia _ _ L), Ns).
        destruct chs as [|c0 r0]; [rewrite ?Ns in Ex; simpl in Ex; discriminate|].
        subst t1. rewrite ?Ns. cbn [negb] in *.
        assert (Hp : In p pre).
        { assert (I : In p (cont s ++ pre)).
          { apply (Permutation_in _ P1).
            apply (Permutation_in _ (Permutation_sym (lei_pop _ _ L _ _ _ Ep))). left; reflexivity. }
          rewrite Cs in I. exact I. }
        assert (Hle : (chegada p <= py_max t (chegada c0))%Q).
        { rewrite Forall_forall in F1. apply Qle_bool_iff, (F1 p Hp). }
        assert (Hge : (chegada c0 <= chegada p)%Q).
        { assert (In p (c0 :: r0)) as [<-|Hr] by (rewrite Echs; apply in_or_app; left; exact Hp).
          - apply Qle_refl.
          - inversion S as [|? ? _ Fs]; subst. rewrite Forall_forall in Fs.
            apply Qle_bool_iff, (Fs p Hr). }
        rewrite py_max_Qmax in Hle |- *.
        rewrite (Q.max_l _ _ Hle).
        destruct (Qlt_le_dec t (chegada c0)) as [T|T]; [apply Qlt_le_weak in T|].
        -- rewrite (Q.max_r _ _ T) in Hle |- *.
           rewrite (Q.max_r t (chegada p)); [|apply Qle_trans with (chegada c0); assumption].
           apply Qle_antisym; assumption.
        -- rewrite (Q.max_l _ _ T) in Hle |- *.
           rewrite (Q.max_l _ _ Hle). reflexivity.
    + simpl. rewrite map_app. simpl. rewrite last_last. reflexivity.
  - destruct chs1 as [|c1 chs1'].
    + injection E as <-. exact Ag.
    + exfalso. apply (lei_pop_none _ _ L) in Ep. rewrite Ep in P1.
      apply Permutation_nil, app_eq_nil in P1 as [Cs Pre]. subst pre.
      simpl in Echs. subst chs.
      destruct (d_nao_vazia s) eqn:Ns.
      * assert (N : d_nao_vazia s = false) by (apply (lei_nao_vazia _ _ L), Cs). congruence.
      * subst t1. cbn [admitir negb] in Ea.
        assert (Le : py_le (chegada c1) (py_max t (chegada c1)) = true)
          by (apply Qle_bool_iff, py_max_ge).
        rewrite Le in Ea.
        destruct (d_push c1 s) as [s0|e] eqn:Ep0; [|discriminate].
        destruct (admitir_prefixo _ _ _ _ _ Ea) as [pre0 [E0 _]].
        apply (f_equal (@length Cliente)) in E0. rewrite length_app in E0. simpl in E0. lia.
Qed.

End AgendaProofs.

(** ** Order within a type under 'lista' *)

Lemma do_tipo_app (t : string) (l1 l2 : list Cliente) :
  do_tipo t (l1 ++ l2) = do_tipo t l1 ++ do_tipo t l2.
Proof. apply filter_app. Qed.

Lemma do_tipo_outro (t0 t : string) (l : list Cliente) :
  Forall (fun c => tipo c = t0) l -> String.eqb t0 t = false -> do_tipo t l = [].
Proof.
  intros F E. induction F as [|c l Hc F IH]; [reflexivity|].
  unfold do_tipo in *. simpl. rewrite Hc, E. exact IH.
Qed.

Lemma push_lista_tipo (c : Cliente) (f f' : Filas) :
  filas_ok f -> push_lista c f = Ok f' ->
  filas_ok f' /\ forall t, do_tipo t (conteudo_lista f') = do_tipo t (conteudo_lista f ++ [c]).
Proof.
  intros [F1 [F2 F3]] E. unfold push_lista in E.
  destruct (String.eqb_spec (tipo c) "corporativo") as [T1|T1];
    [|destruct (String.eqb_spec (tipo c) "preferencial") as [T2|T2];
      [|destruct (String.eqb_spec (tipo c) "comum") as [T3|T3]]];
    try discriminate; injection E as <-; unfold filas_ok, conteudo_lista; simpl.
  - split; [repeat split; auto; apply Forall_app; split; auto|].
    intros t. rewrite <- !app_assoc, !do_tipo_app.
    destruct (String.eqb_spec "corporativo" t) as [<-|N].
    + rewrite (do_tipo_outro "preferencial" _ _ F2), (do_tipo_outro "comum" _ _ F3) by reflexivity.
      rewrite !app_nil_r, app_nil_l. reflexivity.
    + rewrite (do_tipo_outro "corporativo" t [c]) by (auto; apply String.eqb_neq; auto).
      rewrite !app_nil_r, !app_nil_l. reflexivity.
  - split; [repeat split; auto; apply Forall_app; split; auto|].
    intros t. rewrite <- !app_assoc, !do_tipo_app.
    destruct (String.eqb_spec "preferencial" t) as [<-|N].
    + rewrite (do_tipo_outro "comum" _ _ F3) by reflexivity.
      rewrite !app_nil_r, app_nil_l. reflexivity.
    + rewrite (do_tipo_outro "preferencial" t [c]) by (auto; apply String.eqb_neq; auto).
      rewrite !app_nil_r, !app_nil_l. reflexivity.
  - split; [repeat split; auto; apply Forall_app; split; auto|].
    intros t. rewrite <- !app_assoc. reflexivity.
Qed.

Lemma pop_lista_cabeca (f f' : Filas) (c : Cliente) :
  pop_from_filas_deque f = Some (c, f') -> conteudo_lista f = c :: conteudo_lista f'.
Proof.
  destruct f as [[|a r] [|b q] [|d u]]; unfold pop_from_filas_deque, conteudo_lista; simpl;
    intros E; try discriminate; injection E as <- <-; reflexivity.
Qed.

Lemma pop_lista_ok (f f' : Filas) (c : Cliente) :
  filas_ok f -> pop_from_filas_deque f = Some (c, f') -> filas_ok f'.
Proof.
  destruct f as [c1 p1 m1]; intros [F1 [F2 F3]]; unfold pop_from_filas_deque, filas_ok in *;
    simpl in *.
  destruct c1 as [|a r].
  - destruct p1 as [|b q].
    + destruct m1 as [|d u]; intros E; [discriminate|]. injection E as <- <-. simpl.
      repeat split; auto. apply (Forall_inv_tail F3).
    + intros E. injection E as <- <-. simpl. repeat split; auto. apply (Forall_inv_tail F2).
  - intros E. injection E as <- <-. simpl. repeat split; auto. apply (Forall_inv_tail F1).
Qed.

Lemma admitir_lista_tipo (t : Q) (chs : list Cliente) (f : Filas) chs' f' :
  filas_ok f -> admitir lista t chs f = Ok (chs', f') ->
  filas_ok f' /\
  forall ty, do_tipo ty (conteudo_lista f' ++ chs') = do_tipo ty (conteudo_lista f ++ chs).
Proof.
  revert f. induction chs as [|c r IH]; intros f Ok0 E; cbn [admitir d_push lista] in E.
  - injection E as <- <-. auto.
  - destruct (py_le (chegada c) t).
    + destruct (push_lista c f) as [f1|e] eqn:Ep; [|discriminate].
      destruct (push_lista_tipo c f f1 Ok0 Ep) as [Ok1 T1].
      destruct (IH f1 Ok1 E) as [Ok2 T2]. split; [exact Ok2|].
      intros ty. rewrite T2, do_tipo_app, T1, <- do_tipo_app, <- app_assoc. reflexivity.
    + injection E as <- <-. auto.
Qed.

Lemma laco_lista_tipo (fuel : nat) (t : Q) (chs : list Cliente) (f : Filas)
  (ats ats' : list Atendido) :
  filas_ok f -> laco lista fuel t chs f ats = Some (Ok ats') ->
  forall ty, do_tipo ty (map cli ats') = do_tipo ty (map cli ats ++ conteudo_lista f ++ chs).
Proof.
  revert t chs f ats. induction fuel as [|n IH]; intros t chs f ats Okf E ty;
    cbn [laco] in E; [discriminate|].
  destruct (negb (nao_vazia chs) && negb (@d_nao_vazia lista f)) eqn:Ex.
  { injection E as <-. apply andb_true_iff in Ex as [E1 E2]. apply negb_true_iff in E1, E2.
    apply (lei_nao_vazia _ _ leis_lista) in E2. cbn in E2. rewrite E2.
    destruct chs; [|discriminate]. rewrite app_nil_r. reflexivity. }
  match type of E with
  | match admitir _ ?t1 _ _ with _ => _ end = _ =>
    destruct (admitir lista t1 chs f) as [[chs1 f1]|e] eqn:Ea; [|discriminate]
  end.
  destruct (admitir_lista_tipo _ chs f chs1 f1 Okf Ea) as [Ok1 T1].
  rewrite !do_tipo_app, <- (do_tipo_app ty (conteudo_lista f)), <- T1, do_tipo_app,
    <- !do_tipo_app.
  destruct (pop_from_filas_deque f1) as [[p f2]|] eqn:Ep; cbn [d_pop lista] in E; rewrite Ep in E.
  - rewrite (pop_lista_cabeca _ _ _ Ep).
    pose proof (pop_lista_ok _ _ _ Ok1 Ep) as Ok2.
    match type of E with
    | match admitir _ ?t2 _ _ with _ => _ end = _ =>
      destruct (admitir lista t2 chs1 f2) as [[chs2 f3]|e] eqn:Eb; [|discriminate]
    end.
    destruct (admitir_lista_tipo _ chs1 f2 chs2 f3 Ok2 Eb) as [Ok3 T3].
    rewrite (IH _ _ _ _ Ok3 E ty), !do_tipo_app, <- (do_tipo_app ty (conteudo_lista f3)), T3.
    rewrite map_app, !do_tipo_app. simpl. rewrite <- !app_assoc. unfold do_tipo; simpl.
    destruct (String.eqb (tipo p) ty); reflexivity.
  - apply (lei_pop_none _ _ leis_lista) in Ep. cbn in Ep.
    destruct chs1 as [|c1 chs1'].
    + injection E as <-. rewrite Ep. rewrite !app_nil_r. reflexivity.
    + rewrite (IH _ _ _ _ Ok1 E ty). reflexivity.
Qed.

(** ** Sums of the statistics *)

Lemma fold_Qplus_ext (l : list Q) (a b : Q) :
  (a == b)%Q -> (fold_left Qplus l a == fold_left Qplus l b)%Q.
Proof.
  revert a b. induction l as [|x l IH]; intros a b E; simpl; [exact E|].
  apply IH. rewrite E. reflexivity.
Qed.

Lemma fold_Qplus_perm (l1 l2 : list Q) (a : Q) :
  Permutation l1 l2 -> (fold_left Qplus l1 a == fold_left Qplus l2 a)%Q.
Proof.
  intros P. revert a. induction P as [|x l1 l2 P IH|x y l|l1 l2 l3 P1 IH1 P2 IH2]; intros a; simpl.
  - reflexivity.
  - apply IH.
  - apply fold_Qplus_ext. ring.
  - rewrite IH1. apply IH2.
Qed.

Lemma fold_Qplus_ge (l : list Q) (a : Q) :
  Forall (fun x => 0 <= x)%Q l -> (a <= fold_left Qplus l a)%Q.
Proof.
  intros F. revert a. induction F as [|x l Hx F IH]; intros a; simpl; [apply Qle_refl|].
  apply Qle_trans with (a + x)%Q; [|apply IH].
  rewrite <- (Qplus_0_r a) at 1. apply Qplus_le_compat; [apply Qle_refl|exact Hx].
Qed.

(** ** The dict [mapa] *)

Lemma dict_get_set {V : Type} (k k' : string) (v : V) (d : list (string * V)) :
  dict_get k (dict_set k' v d) = if String.eqb k k' then Some v else dict_get k d.
Proof.
  induction d as [|[k1 v1] r IH]; simpl; [reflexivity|].
  destruct (String.eqb_spec k' k1) as [<-|N1]; simpl.
  - destruct (String.eqb k k'); reflexivity.
  - destruct (String.eqb_spec k k1) as [->|N2].
    + destruct (String.eqb_spec k1 k') as [E|_]; [congruence|reflexivity].
    + exact IH.
Qed.

Lemma dict_set_chaves {V : Type} (k x : string) (v : V) (d : list (string * V)) :
  In x (map fst (dict_set k v d)) <-> In x (map fst d) \/ x = k.
Proof.
  induction d as [|[k1 v1] r IH]; simpl.
  - split; [intros [E | []]; auto | intros [[] | E]; auto].
  - destruct (String.eqb_spec k k1) as [<-|N]; simpl.
    + split; [tauto|]. intros [[E|E]|E]; auto.
    + rewrite IH. tauto.
Qed.

Lemma dict_set_nodup {V : Type} (k : string) (v : V) (d : list (string * V)) :
  NoDup (map fst d) -> NoDup (map fst (dict_set k v d)).
Proof.
  induction d as [|[k1 v1] r IH]; simpl; intros N.
  - constructor; [intros []|constructor].
  - inversion N as [|? ? Nin N']; subst.
    destruct (String.eqb_spec k k1) as [<-|Ne]; simpl; [exact N|].
    constructor; [|apply IH, N'].
    rewrite dict_set_chaves. intros [H|H]; [contradiction|congruence].
Qed.

Lemma mapa_fold (l : list Cliente) (d : list (string * Cliente)) (k : string) :
  dict_get k (fold_left (fun d c => dict_set (cid c) c d) l d) =
  match hd_error (rev (filter (fun c => String.eqb (cid c) k) l)) with
  | Some c => Some c
  | None => dict_get k d
  end.
Proof.
  revert d. induction l as [|c l IH]; intros d; simpl; [reflexivity|].
  rewrite IH, dict_get_set, (String.eqb_sym k (cid c)).
  destruct (rev (filter (fun c0 => String.eqb (cid c0) k) l)) as [|x r] eqn:R;
    destruct (String.eqb (cid c) k); simpl; rewrite ?R; reflexivity.
Qed.

Lemma mapa_chaves (l : list Cliente) (d : list (string * Cliente)) :
  NoDup (map fst d) ->
  NoDup (map fst (fold_left (fun d c => dict_set (cid c) c d) l d)) /\
  forall k, In k (map fst (fold_left (fun d c => dict_set (cid c) c d) l d)) <->
            In k (map fst d) \/ In k (map cid l).
Proof.
  revert d. induction l as [|c l IH]; intros d N; simpl.
  - split; [exact N|]. intros k. tauto.
  - destruct (IH (dict_set (cid c) c d) (dict_set_nodup _ _ _ N)) as [N' H].
    split; [exact N'|]. intros k. rewrite H, dict_set_chaves. intuition congruence.
Qed.

(** ** [carregar_csv] *)

Section CarregarProofs.
Variable py_float : string -> option Q.

Lemma primeira_linha_eq (first : list string) :
  primeira_linha py_float first =
  match cliente_de_linha py_float first with Some c => [c] | None => [] end.
Proof.
  unfold primeira_linha, cliente_de_linha.
  destruct first as [|a0 [|a1 [|a2 [|a3 [|a4 r]]]]]; simpl; try reflexivity.
  destruct (py_float a4), (py_float a3); reflexivity.
Qed.

Lemma cliente_de_linha_tipo (row : list string) (c : Cliente) :
  cliente_de_linha py_float row = Some c -> lower (tipo c) = tipo c.
Proof.
  unfold cliente_de_linha.
  destruct row as [|a0 [|a1 [|a2 [|a3 [|a4 r]]]]]; try discriminate.
  destruct (py_float a3), (py_float a4); try discriminate.
  intros E. injection E as <-. apply lower_idem.
Qed.

Lemma demais_linhas_falha (rows : list (list string)) :
  (demais_linhas py_float rows = Falhou ValueError <->
   exists row, In row rows /\ 5 <= length row /\ cliente_de_linha py_float row = None) /\
  (demais_linhas py_float rows = Falhou ValueError \/ exists cs, demais_linhas py_float rows = Lido cs).
Proof.
  induction rows as [|row r [IH1 IH2]]; simpl.
  - split; [split; [discriminate|intros [? [[] _]]]|eauto].
  - destruct (length row <? 5) eqn:Lr.
    + apply Nat.ltb_lt in Lr. split; [|exact IH2]. rewrite IH1.
      split; [intros [x [Hx H]]; eauto|].
      intros [x [[<-|Hx] [Lx Cx]]]; [lia|eauto].
    + apply Nat.ltb_ge in Lr.
      destruct (cliente_de_linha py_float row) as [c|] eqn:Cr.
      * destruct (demais_linhas py_float r) as [cs|e] eqn:Dr.
        -- split; [|eauto]. split; [discriminate|].
           intros [x [[<-|Hx] [Lx Cx]]]; [congruence|].
           destruct IH1 as [_ IH1]. specialize (IH1 (ex_intro _ x (conj Hx (conj Lx Cx)))).
           discriminate.
        -- destruct IH2 as [IH2|[? IH2]]; [|discriminate].
           injection IH2 as ->. split; [|auto]. split; [intros _|reflexivity].
           destruct IH1 as [IH1 _]. destruct (IH1 eq_refl) as [x [Hx H]]. eauto.
      * split; [|auto]. split; [intros _; exists row; auto|reflexivity].
Qed.

Lemma demais_linhas_lido (rows : list (list string)) (cs : list Cliente) :
  demais_linhas py_float rows = Lido cs ->
  map Some cs = map (cliente_de_linha py_float) (filter (fun r => 5 <=? length r) rows).
Proof.
  revert cs. induction rows as [|row r IH]; intros cs E; cbn [filter demais_linhas map] in *.
  - injection E as <-. reflexivity.
  - destruct (length row <? 5) eqn:Lr.
    + apply Nat.ltb_lt in Lr.
      assert (N : (5 <=? length row) = false) by (apply Nat.leb_gt; lia).
      rewrite N. apply IH, E.
    + apply Nat.ltb_ge in Lr. apply Nat.leb_le in Lr. rewrite Lr.
      destruct (cliente_de_linha py_float row) as [c|] eqn:Cr; [|discriminate].
      destruct (demais_linhas py_float r) as [cs'|e]; [|discriminate].
      injection E as <-. cbn [map]. rewrite Cr, (IH cs' eq_refl). reflexivity.
Qed.

End CarregarProofs.

Lemma reconhecido_prioridade (c : Cliente) :
  lower (tipo c) = tipo c -> (reconhecido c = true <-> (tipo_prioridade (tipo c) < 99)%Z).
Proof.
  intros Lw. unfold reconhecido, tipo_prioridade. rewrite Lw.
  destruct (String.eqb (tipo c) "corporativo"), (String.eqb (tipo c) "preferencial"),
    (String.eqb (tipo c) "comum"); simpl; split; intros; try lia; congruence.
Qed.

Lemma SS_filter {A : Type} (R : A -> A -> Prop) (f : A -> bool) (l : list A) :
  StronglySorted R l -> StronglySorted R (filter f l).
Proof.
  induction l as [|x l IH]; intros S; [constructor|].
  apply StronglySorted_inv in S as [S F]. simpl. destruct (f x); [|auto].
  constructor; [auto|]. rewrite Forall_forall in *. intros y Hy.
  apply filter_In in Hy as [Hy _]. auto.
Qed.

(** A run that returns serves along [agenda] from time 0. *)
Lemma simular_agenda (clientes : list Cliente) (est alg rr : string) (undo : bool)
  (st : Estatisticas) (ats u : list Atendido) :
  simular clientes est alg rr undo = Some (Ok (st, ats, u)) -> agenda 0 ats.
Proof.
  unfold simular. intros E.
  destruct (String.eqb est "lista");
    [destruct (executa lista (ordena_chegadas alg clientes)) as [[ats0|e]|] eqn:R
    |destruct (executa prioridade (ordena_chegadas alg clientes)) as [[ats0|e]|] eqn:R];
    try discriminate; injection E as _ <- _; unfold executa in R;
    [refine (laco_agenda lista conteudo_lista leis_lista _ _ _ _ [] ats0 _ I eq_refl R)
    |refine (laco_agenda prioridade conteudo_heap leis_prioridade _ _ _ _ [] ats0 _ I eq_refl R)];
    apply ordena_sorted.
Qed.


(** C9 (as amended): [simular] validates no field. Whatever the service
    times and arrival times (negative ones included), a run under
    'prioridade', or under 'lista' with every type recognized, completes
    and timestamps every customer with start = max(clock, arrival), where
    the clock is the end of the previous service (0 for the first one),
    and end = start + service time. *)
Theorem sem_validacao (clientes : list Cliente) (est alg rr : string) (undo : bool) :
  (String.eqb est "lista" = false \/ Forall (fun c => reconhecido c = true) clientes) ->
  exists st ats u, simular clientes est alg rr undo = Some (Ok (st, ats, u)) /\
    Permutation (map cli ats) clientes /\ Forall carimbo_ok ats /\ agenda 0 ats.
Proof.
  intros H.
  destruct (simular_spec clientes est alg rr undo) as [r [Er [H1 H2]]].
  destruct (H2 H) as [st [ats [u ->]]].
  exists st, ats, u. split; [exact Er|].
  destruct (H1 st ats u eq_refl) as [P [C _]]. split; [|split]; try assumption.
  apply (simular_agenda clientes est alg rr undo st ats u Er).
Qed.

Lemma sem_validacao_witness :
  (String.eqb "prioridade" "lista" = false \/ Forall (fun c => reconhecido c = true) [cliente_neg]) /\
  exists st ats u, simular [cliente_neg] "prioridade" "merge" "por_prioridade" false =
      Some (Ok (st, ats, u)) /\
    Permutation (map cli ats) [cliente_neg] /\ Forall carimbo_ok ats /\ agenda 0 ats.
Proof.
  assert (H : String.eqb "prioridade" "lista" = false \/
              Forall (fun c => reconhecido c = true) [cliente_neg]) by (left; reflexivity).
  split; [exact H|].
  apply (sem_validacao [cliente_neg] "prioridade" "merge" "por_prioridade" false H).
Defined.

(** ** Properties of the whole program *)

(** X1: [merge_sort] and [quick_sort] return the same list for every
    input and every key into a total preorder. *)
Theorem sorts_iguais {A K : Type} `{PyOrdLaws K} (key : A -> K) (l : list A) :
  merge_sort key l = quick_sort key l.
Proof. apply merge_quick_iguais. Qed.

Lemma sorts_iguais_witness :
  merge_sort chegada [cliente_C; cliente_A; cliente_B] = [cliente_A; cliente_C; cliente_B] /\
  merge_sort chegada [cliente_C; cliente_A; cliente_B] = quick_sort chegada [cliente_C; cliente_A; cliente_B].
Proof.
  split; [vm_compute; reflexivity|].
  apply (sorts_iguais (K := Q) chegada [cliente_C; cliente_A; cliente_B]).
Defined.

(** X2: the served sequence of [simular] (its customers and timestamps)
    does not depend on the sort chosen nor on [reorder_rule] nor on
    [registrar_undo]. *)
Theorem atendidos_independem (clientes : list Cliente) (est a1 a2 rr1 rr2 : string) (u1 u2 : bool) :
  atendidos_de (simular clientes est a1 rr1 u1) = atendidos_de (simular clientes est a2 rr2 u2).
Proof.
  unfold simular. rewrite (ordena_indep a1 a2 clientes).
  destruct (if String.eqb est "lista" then executa lista (ordena_chegadas a2 clientes)
            else executa prioridade (ordena_chegadas a2 clientes)) as [[ats|e]|];
    reflexivity.
Qed.

(** X3: in a run that returns, the first served customer starts at
    max(0, its arrival) and every next one at max(end of the previous one,
    its arrival); each ends at its start plus its service time. *)
Theorem agenda_servico (clientes : list Cliente) (est alg rr : string) (undo : bool)
  (st : Estatisticas) (ats u : list Atendido) :
  simular clientes est alg rr undo = Some (Ok (st, ats, u)) -> agenda 0 ats.
Proof. apply simular_agenda. Qed.

Lemma agenda_servico_witness :
  simular cenario "prioridade" "merge" "por_chegada" false =
    Some (Ok (mk_stats 3 11 (11 # 3) 10 "prioridade" "merge" "por_chegada" (complexity_hint "merge"),
              atendidos_cenario, [])) /\
  agenda 0 atendidos_cenario.
Proof.
  split; [vm_compute; reflexivity|].
  apply (agenda_servico cenario "prioridade" "merge" "por_chegada" false
           (mk_stats 3 11 (11 # 3) 10 "prioridade" "merge" "por_chegada" (complexity_hint "merge"))
           atendidos_cenario []).
  vm_compute. reflexivity.
Defined.

(** X4: in a run that returns, [n_atendidos] is the number of input
    customers. *)
Theorem estatisticas_conservadas (clientes : list Cliente) (est alg rr : string) (undo : bool)
  (st : Estatisticas) (ats u : list Atendido) :
  simular clientes est alg rr undo = Some (Ok (st, ats, u)) ->
  n_atendidos st = length clientes.
Proof.
  intros E.
  destruct (simular_spec clientes est alg rr undo) as [r [Er [H1 _]]].
  rewrite E in Er. injection Er as <-.
  destruct (H1 st ats u eq_refl) as [P _].
  unfold simular in E.
  destruct (if String.eqb est "lista" then executa lista (ordena_chegadas alg clientes)
            else executa prioridade (ordena_chegadas alg clientes)) as [[ats0|e]|];
    try discriminate.
  injection E as <- <- _. unfold estatisticas; cbn [n_atendidos].
  rewrite <- (length_map cli ats0). apply Permutation_length, P.
Qed.

Lemma estatisticas_conservadas_witness :
  simular cenario_fifo "lista" "quick" "por_chegada" false =
    Some (Ok (stats_fifo, atendidos_fifo, [])) /\
  n_atendidos stats_fifo = length cenario_fifo.
Proof.
  assert (E : simular cenario_fifo "lista" "quick" "por_chegada" false =
                Some (Ok (stats_fifo, atendidos_fifo, []))) by (vm_compute; reflexivity).
  split; [exact E|].
  apply (estatisticas_conservadas cenario_fifo "lista" "quick" "por_chegada" false _ _ _ E).
Defined.

(** X5: in a run that returns, every served customer has a non-negative
    [espera()], and the total and the mean wait are non-negative. *)
Theorem esperas_nao_negativas (clientes : list Cliente) (est alg rr : string) (undo : bool)
  (st : Estatisticas) (ats u : list Atendido) :
  simular clientes est alg rr undo = Some (Ok (st, ats, u)) ->
  (forall a, In a ats -> (0 <= espera a)%Q) /\
  (0 <= tempo_total_espera st)%Q /\ (0 <= tempo_medio_espera st)%Q.
Proof.
  intros E.
  destruct (simular_spec clientes est alg rr undo) as [r [Er [H1 _]]].
  rewrite E in Er. injection Er as <-.
  destruct (H1 st ats u eq_refl) as [_ [C _]]. rewrite Forall_forall in C.
  assert (Ha : forall a, In a ats -> (0 <= espera a)%Q).
  { intros a Ha. destruct (C a Ha) as [C1 _]. unfold espera.
    apply Qle_minus_iff in C1. exact C1. }
  assert (T : (0 <= py_sum (map espera ats))%Q).
  { apply fold_Qplus_ge. apply Forall_forall. intros x Hx.
    apply in_map_iff in Hx as [a [<- Ha']]. apply (Ha a Ha'). }
  split; [exact Ha|].
  unfold simular in E.
  destruct (if String.eqb est "lista" then executa lista (ordena_chegadas alg clientes)
            else executa prioridade (ordena_chegadas alg clientes)) as [[ats0|e]|];
    try discriminate.
  injection E as <- <- _. unfold estatisticas; cbn [tempo_total_espera tempo_medio_espera].
  split; [exact T|].
  destruct (0 <? length ats0) eqn:N; [|apply Qle_refl].
  apply Nat.ltb_lt in N.
  apply Qle_shift_div_l.
  - unfold Qlt. simpl. lia.
  - rewrite Qmult_0_l. exact T.
Qed.

Lemma esperas_nao_negativas_witness :
  simular cenario_fifo "lista" "quick" "por_chegada" false =
    Some (Ok (stats_fifo, atendidos_fifo, [])) /\
  ((forall a, In a atendidos_fifo -> (0 <= espera a)%Q) /\
   (0 <= tempo_total_espera stats_fifo)%Q /\ (0 <= tempo_medio_espera stats_fifo)%Q).
Proof.
  assert (E : simular cenario_fifo "lista" "quick" "por_chegada" false =
                Some (Ok (stats_fifo, atendidos_fifo, []))) by (vm_compute; reflexivity).
  split; [exact E|].
  apply (esperas_nao_negativas cenario_fifo "lista" "quick" "por_chegada" false _ _ _ E).
Defined.

(** X6: customers of one type are served in the order of the sorted
    arrivals, so in non-decreasing arrival order; under 'lista' always,
    under the heap when every type is recognized. *)
Theorem fifo_por_tipo (clientes : list Cliente) (est alg rr : string) (undo : bool)
  (st : Estatisticas) (ats u : list Atendido) :
  (String.eqb est "lista" = true \/ Forall (fun c => reconhecido c = true) clientes) ->
  simular clientes est alg rr undo = Some (Ok (st, ats, u)) ->
  forall t, do_tipo t (map cli ats) = do_tipo t (ordena_chegadas alg clientes) /\
    StronglySorted (fun a b => py_le (chegada a) (chegada b) = true) (do_tipo t (map cli ats)).
Proof.
  intros H E t.
  assert (Eq : do_tipo t (map cli ats) = do_tipo t (ordena_chegadas alg clientes)).
  { unfold simular in E.
    assert (L : forall ats0, executa lista (ordena_chegadas alg clientes) = Some (Ok ats0) ->
              do_tipo t (map cli ats0) = do_tipo t (ordena_chegadas alg clientes)).
    { intros ats0 R. unfold executa in R.
      assert (F0 : filas_ok filas_vazias) by (repeat split; constructor).
      rewrite (laco_lista_tipo _ _ _ filas_vazias _ _ F0 R t). reflexivity. }
    destruct (String.eqb est "lista") eqn:Es.
    - destruct (executa lista (ordena_chegadas alg clientes)) as [[ats0|e]|] eqn:R;
        try discriminate.
      injection E as _ <- _. apply L; reflexivity.
    - destruct H as [H|H]; [discriminate|].
      rewrite <- (executa_lista_prioridade (ordena_chegadas alg clientes)) in E.
      + destruct (executa lista (ordena_chegadas alg clientes)) as [[ats0|e]|] eqn:R;
          try discriminate.
        injection E as _ <- _. apply L; reflexivity.
      + apply (Permutation_Forall (Permutation_sym (ordena_perm alg clientes))), H.
      + apply ordena_sorted. }
  split; [exact Eq|]. rewrite Eq. unfold do_tipo.
  apply SS_filter, ordena_sorted.
Qed.

Lemma fifo_por_tipo_witness :
  (String.eqb "lista" "lista" = true \/ Forall (fun c => reconhecido c = true) cenario_fifo) /\
  simular cenario_fifo "lista" "quick" "por_chegada" false =
    Some (Ok (stats_fifo, atendidos_fifo, [])) /\
  do_tipo "comum" (map cli atendidos_fifo) = [cliente_D; cliente_E] /\
  do_tipo "comum" (map cli atendidos_fifo) = do_tipo "comum" (ordena_chegadas "quick" cenario_fifo) /\
  StronglySorted (fun a b => py_le (chegada a) (chegada b) = true)
    (do_tipo "comum" (map cli atendidos_fifo)).
Proof.
  assert (H : String.eqb "lista" "lista" = true \/
              Forall (fun c => reconhecido c = true) cenario_fifo) by (left; reflexivity).
  assert (E : simular cenario_fifo "lista" "quick" "por_chegada" false =
                Some (Ok (stats_fifo, atendidos_fifo, []))) by (vm_compute; reflexivity).
  split; [exact H|]. split; [exact E|]. split; [vm_compute; reflexivity|].
  apply (fifo_por_tipo cenario_fifo "lista" "quick" "por_chegada" false _ _ _ H E "comum").
Defined.

(** X7: a customer built by [Cliente.__init__] is accepted by the 'lista'
    push exactly when [tipo_prioridade] of its raw type is below 99, so
    types match the three queues whatever their letter case. *)
Theorem lista_aceita_novo_cliente (i nm tp : string) (ts ch : Q) (f : Filas) :
  (exists f', push_lista (novo_cliente i nm tp ts ch) f = Ok f') <->
  (tipo_prioridade tp < 99)%Z.
Proof.
  unfold push_lista, tipo_prioridade, novo_cliente. cbn [tipo].
  destruct (String.eqb (lower tp) "corporativo"), (String.eqb (lower tp) "preferencial"),
    (String.eqb (lower tp) "comum"); split; try (intros; eauto; lia);
    intros [f' E]; discriminate.
Qed.

(** X8: [mapa] maps each id to the last input customer with that id; its
    keys are exactly the input ids, each once. *)
Theorem mapa_por_id_ultimo (clientes : list Cliente) :
  (forall k, dict_get k (mapa_por_id clientes) =
             hd_error (rev (filter (fun c => String.eqb (cid c) k) clientes))) /\
  NoDup (map fst (mapa_por_id clientes)) /\
  (forall k, In k (map fst (mapa_por_id clientes)) <-> In k (map cid clientes)).
Proof.
  unfold mapa_por_id. split; [|split].
  - intros k. rewrite mapa_fold.
    destruct (hd_error (rev (filter (fun c => String.eqb (cid c) k) clientes))); reflexivity.
  - apply (mapa_chaves clientes [] (NoDup_nil _)).
  - intros k. rewrite (proj2 (mapa_chaves clientes [] (NoDup_nil _)) k). simpl. tauto.
Qed.

(** X9: an empty file raises [StopIteration]; the first row never raises:
    it is loaded when it has five fields that convert and silently skipped
    otherwise (a header, but also a data row with a bad service time). *)
Theorem csv_primeira_linha (py_float : string -> option Q) :
  carregar_csv py_float [] = Falhou StopIteration /\
  forall first rest cs, demais_linhas py_float rest = Lido cs ->
    carregar_csv py_float (first :: rest) =
    Lido (match cliente_de_linha py_float first with Some c => c :: cs | None => cs end).
Proof.
  split; [reflexivity|]. intros first rest cs E. simpl. rewrite E, primeira_linha_eq.
  destruct (cliente_de_linha py_float first); reflexivity.
Qed.

Lemma csv_primeira_linha_witness :
  demais_linhas float_inteiro (tl linhas_sem_cabecalho) =
    Lido [novo_cliente "2" "Ana" "vip" 3 6] /\
  carregar_csv float_inteiro linhas_sem_cabecalho = Lido [novo_cliente "2" "Ana" "vip" 3 6].
Proof.
  assert (D : demais_linhas float_inteiro (tl linhas_sem_cabecalho) =
                Lido [novo_cliente "2" "Ana" "vip" 3 6]) by (vm_compute; reflexivity).
  split; [exact D|].
  change (carregar_csv float_inteiro (hd [] linhas_sem_cabecalho :: tl linhas_sem_cabecalho) =
          Lido [novo_cliente "2" "Ana" "vip" 3 6]).
  rewrite (proj2 (csv_primeira_linha float_inteiro) _ _ _ D). vm_compute. reflexivity.
Defined.

(** X10: on the rows [csv.reader] yields for a file (the file opened,
    decoded and split without error), with at least one row, the load
    either returns or raises [ValueError]; it raises exactly when some row
    after the first has at least five fields and a service or arrival time
    that does not convert. *)
Theorem csv_falha (py_float : string -> option Q) (first : list string) (rest : list (list string)) :
  (carregar_csv py_float (first :: rest) = Falhou ValueError <->
   exists row, In row rest /\ 5 <= length row /\ cliente_de_linha py_float row = None) /\
  (carregar_csv py_float (first :: rest) = Falhou ValueError \/
   exists cs, carregar_csv py_float (first :: rest) = Lido cs).
Proof.
  destruct (demais_linhas_falha py_float rest) as [H1 H2].
  simpl. rewrite <- H1.
  destruct H2 as [->|[cs ->]].
  - split; [tauto|auto].
  - split; [split; discriminate|eauto].
Qed.

(** X11: a loaded file gives, in file order, the customers of the first
    row when it converts and of every later row with at least five fields;
    their types are lower case. *)
Theorem csv_lido (py_float : string -> option Q) (first : list string) (rest : list (list string))
  (cs : list Cliente) :
  carregar_csv py_float (first :: rest) = Lido cs ->
  map Some cs =
    filter (fun o => match o with Some _ => true | None => false end)
      [cliente_de_linha py_float first] ++
    map (cliente_de_linha py_float) (filter (fun r => 5 <=? length r) rest) /\
  Forall (fun c => lower (tipo c) = tipo c) cs.
Proof.
  simpl. destruct (demais_linhas py_float rest) as [cs'|e] eqn:D; [|discriminate].
  intros E. injection E as <-. rewrite primeira_linha_eq.
  pose proof (demais_linhas_lido py_float rest cs' D) as M.
  split.
  - rewrite map_app, M. destruct (cliente_de_linha py_float first); reflexivity.
  - apply Forall_app. split.
    + destruct (cliente_de_linha py_float first) as [c|] eqn:C; constructor; auto.
      apply (cliente_de_linha_tipo py_float first c C).
    + apply Forall_forall. intros c Hc.
      assert (I : In (Some c) (map (cliente_de_linha py_float) (filter (fun r => 5 <=? length r) rest)))
        by (rewrite <- M; apply in_map, Hc).
      apply in_map_iff in I as [row [Er _]].
      apply (cliente_de_linha_tipo py_float row c Er).
Qed.

Lemma csv_lido_witness :
  carregar_csv float_inteiro linhas_exemplo =
    Lido [novo_cliente "1" "Jose Silva" "comum" 8 5; novo_cliente "2" "Ana" "corporativo" 3 6] /\
  map Some [novo_cliente "1" "Jose Silva" "comum" 8 5; novo_cliente "2" "Ana" "corporativo" 3 6] =
    filter (fun o => match o with Some _ => true | None => false end)
      [cliente_de_linha float_inteiro (hd [] linhas_exemplo)] ++
    map (cliente_de_linha float_inteiro) (filter (fun r => 5 <=? length r) (tl linhas_exemplo)) /\
  Forall (fun c => lower (tipo c) = tipo c)
    [novo_cliente "1" "Jose Silva" "comum" 8 5; novo_cliente "2" "Ana" "corporativo" 3 6].
Proof.
  assert (E : carregar_csv float_inteiro linhas_exemplo =
    Lido [novo_cliente "1" "Jose Silva" "comum" 8 5; novo_cliente "2" "Ana" "corporativo" 3 6])
    by (vm_compute; reflexivity).
  split; [exact E|].
  apply (csv_lido float_inteiro (hd [] linhas_exemplo) (tl linhas_exemplo) _ E).
Defined.

(** X12: for customers loaded by [carregar_csv], a 'lista' run returns
    when every type has [tipo_prioridade] below 99 (one of the three types
    in any letter case), and raises otherwise. *)
Theorem csv_lista (py_float : string -> option Q) (rows : list (list string)) (cs : list Cliente)
  (alg rr : string) (undo : bool) :
  carregar_csv py_float rows = Lido cs ->
  (Forall (fun c => (tipo_prioridade (tipo c) < 99)%Z) cs /\
   exists r, simular cs "lista" alg rr undo = Some (Ok r)) \/
  (~ Forall (fun c => (tipo_prioridade (tipo c) < 99)%Z) cs /\
   exists e, simular cs "lista" alg rr undo = Some (Raise e)).
Proof.
  intros E.
  assert (Lw : Forall (fun c => lower (tipo c) = tipo c) cs).
  { destruct rows as [|first rest]; [discriminate|].
    apply (proj2 (csv_lido py_float first rest cs E)). }
  assert (Eq : Forall (fun c => reconhecido c = true) cs <->
               Forall (fun c => (tipo_prioridade (tipo c) < 99)%Z) cs).
  { rewrite !Forall_forall. rewrite Forall_forall in Lw.
    split; intros H c Hc; apply (reconhecido_prioridade c (Lw c Hc)); auto. }
  rewrite <- Eq.
  destruct (simular_spec cs "lista" alg rr undo) as [r [Er [H1 H2]]].
  destruct r as [[[st ats] u]|e].
  - left. split; [|eauto].
    destruct (H1 st ats u eq_refl) as [P [_ F]].
    apply (Permutation_Forall P), F. reflexivity.
  - right. split; [|eauto]. intros F.
    destruct (H2 (or_intror F)) as [st [ats [u Ek]]]. discriminate.
Qed.

Lemma csv_lista_witness :
  carregar_csv float_inteiro linhas_sem_cabecalho = Lido [novo_cliente "2" "Ana" "vip" 3 6] /\
  ((Forall (fun c => (tipo_prioridade (tipo c) < 99)%Z) [novo_cliente "2" "Ana" "vip" 3 6] /\
    exists r, simular [novo_cliente "2" "Ana" "vip" 3 6] "lista" "merge" "por_prioridade" false =
      Some (Ok r)) \/
   (~ Forall (fun c => (tipo_prioridade (tipo c) < 99)%Z) [novo_cliente "2" "Ana" "vip" 3 6] /\
    exists e, simular [novo_cliente "2" "Ana" "vip" 3 6] "lista" "merge" "por_prioridade" false =
      Some (Raise e))).
Proof.
  assert (E : carregar_csv float_inteiro linhas_sem_cabecalho = Lido [novo_cliente "2" "Ana" "vip" 3 6])
    by (vm_compute; reflexivity).
  split; [exact E|].
  apply (csv_lista float_inteiro linhas_sem_cabecalho _ "merge" "por_prioridade" false E).
Defined.
